(** * pyrefs: the RIS tag-line parser and the APA citation renderer

    A shallow embedding of [parser.py].  Python strings are sequences of
    Unicode code points, dictionaries are finite maps, the exceptions the
    code can raise are values of [exn], and the one attribute the parser
    mutates ([self.inref]) is threaded through a small state-and-error
    monad. *)

From Stdlib Require Import ZArith NArith Ascii String.
From stdpp Require Import gmap list strings pretty sorting.

Open Scope list_scope.

(** ** Python values *)

(** A [str] is a sequence of code points. *)
Abbreviation pystr := (list N).

(** An ASCII literal as a Python string. *)
Definition py (s : string) : pystr :=
  map N_of_ascii (list_ascii_of_string s).

(** The values the parser stores in a record: a string, or a list of
    strings. *)
Inductive pyval :=
| VStr (s : pystr)
| VList (l : list pystr).

Global Instance pyval_eq_dec : EqDecision pyval.
Proof. solve_decision. Defined.

(** A [dict] from field names to values. *)
Abbreviation dict := (gmap pystr pyval).

(** Truth value of an object: the empty string and the empty list are
    false. *)
Definition truthy (v : pyval) : bool :=
  match v with
  | VStr s => negb (bool_decide (s = []))
  | VList l => negb (bool_decide (l = []))
  end.

(** Truth value of [d.get(name)]: a missing key gives [None], which is
    false. *)
Definition truthy_get (d : dict) (name : pystr) : bool :=
  match d !! name with
  | Some v => truthy v
  | None => false
  end.

(** Truth value of a dictionary: false exactly when it is empty. *)
Definition dict_truthy (d : dict) : bool := negb (bool_decide (d = ∅)).

(** ** String methods *)

(** [str.isspace] on one code point (also the class [\s] of [re] on
    [str] patterns). *)
Definition isspace (c : N) : bool :=
  ((9 <=? c) && (c <=? 13) || (28 <=? c) && (c <=? 32)
   || (c =? 133) || (c =? 160) || (c =? 5760)
   || (8192 <=? c) && (c <=? 8202)
   || (c =? 8232) || (c =? 8233) || (c =? 8239) || (c =? 8287)
   || (c =? 12288))%N.

Fixpoint lstrip_with (p : N -> bool) (s : pystr) : pystr :=
  match s with
  | [] => []
  | c :: s' => if p c then lstrip_with p s' else s
  end.

Definition rstrip_with (p : N -> bool) (s : pystr) : pystr :=
  rev (lstrip_with p (rev s)).

(** [s.lstrip(chars)]: drops the leading code points that occur in
    [chars]. *)
Definition lstrip (chars : pystr) (s : pystr) : pystr :=
  lstrip_with (fun c => bool_decide (c ∈ chars)) s.

(** [s.strip()]: drops white space at both ends. *)
Definition strip (s : pystr) : pystr :=
  rstrip_with isspace (lstrip_with isspace s).

(** [s.split(sep)] for a separator of one code point. *)
Fixpoint split_aux (sep : N) (cur : pystr) (s : pystr) : list pystr :=
  match s with
  | [] => [rev cur]
  | c :: s' =>
      if (c =? sep)%N then rev cur :: split_aux sep [] s'
      else split_aux sep (c :: cur) s'
  end.

Definition split (sep : N) (s : pystr) : list pystr := split_aux sep [] s.

(** [sep.join(l)]. *)
Fixpoint join (sep : pystr) (l : list pystr) : pystr :=
  match l with
  | [] => []
  | [s] => s
  | s :: l' => s ++ sep ++ join sep l'
  end.

(** ** Exceptions *)

Inductive exn :=
| ParserError (msg : pystr)
| KeyError (key : pystr)
| Exception
| AttributeError.

Inductive result (A : Type) :=
| Ok (a : A)
| Raise (e : exn).
Arguments Ok {A} a.
Arguments Raise {A} e.

(** The argument of the [ParserError] of [_parse_tag]:
    [f"Missing end of record tag in line {index}:\n {line}"]. *)
Definition missing_end_msg (index : nat) (line : pystr) : pystr :=
  py "Missing end of record tag in line " ++ py (pretty index)
  ++ [58; 10; 32]%N ++ line.

(** ** The parser class *)

(** What a concrete parser class fixes ([START_TAG], [END_TAG], the
    compiled [PATTERN] as the predicate [pattern.match(line)] is not
    [None], and the abstract method [content]) together with the
    attributes [__init__] stores. *)
Record Parser := {
  START_TAG : pystr;
  END_TAG : pystr;
  pattern_match : pystr -> bool;
  content : pystr -> pyval;
  mapping : gmap pystr pystr;
  list_tags : list pystr;
  delimiter : gmap pystr (option pystr);
  enforce_list_tags : bool;
}.

(** [self.delimiter.get(tag)]: [None] for a missing key and for a key
    bound to [None]. *)
Definition delimiter_get (P : Parser) (tag : pystr) : option pystr :=
  match delimiter P !! tag with
  | Some d => d
  | None => None
  end.

(** ** Adding a field to the working record *)

Definition setdefault (name : pystr) (value : pyval) (data : dict) : dict :=
  match data !! name with
  | Some _ => data
  | None => <[name := value]> data
  end.

Definition _add_single_tag (P : Parser) (name : pystr) (value : pyval)
    (data : dict) : dict :=
  if enforce_list_tags P || bool_decide (data !! name = None)
  then setdefault name value data
  else data.

(** [value if isinstance(value, list) else [value]]. *)
Definition as_list (value : pyval) : list pystr :=
  match value with VList l => l | VStr s => [s] end.

Definition _add_list_tag (name : pystr) (value : pyval) (data : dict)
    : result dict :=
  let value := as_list value in
  if negb (truthy_get data name) then Ok (<[name := VList value]> data)
  else
    match data !! name with
    | Some (VList l) => Ok (<[name := VList (l ++ value)]> data)
    | _ => Raise AttributeError
    end.

Definition _add_tag (P : Parser) (tag line : pystr) (data : dict)
    : result dict :=
  match mapping P !! tag with
  | None => Raise (KeyError tag)
  | Some name =>
      let value := content P line in
      match delimiter_get P tag with
      | Some _ => Raise Exception
      | None =>
          if bool_decide (tag ∈ list_tags P)
          then _add_list_tag name value data
          else Ok (_add_single_tag P name value data)
      end
  end.

(** ** The state of a parser instance

    [self.inref] is the only attribute written after construction; a
    fresh instance does not have it ([None]). *)
Definition M (A : Type) : Type := option bool -> result A * option bool.

Definition ret {A} (a : A) : M A := fun s => (Ok a, s).
Definition raise {A} (e : exn) : M A := fun s => (Raise e, s).
Definition bind {A B} (m : M A) (k : A -> M B) : M B :=
  fun s => match m s with
           | (Ok a, s') => k a s'
           | (Raise e, s') => (Raise e, s')
           end.
Definition lift {A} (r : result A) : M A := fun s => (r, s).
Definition get_inref : M bool :=
  fun s => match s with
           | Some b => (Ok b, s)
           | None => (Raise AttributeError, s)
           end.
Definition set_inref (b : bool) : M unit := fun _ => (Ok tt, Some b).

Notation "'let*' x ':=' m 'in' k" := (bind m (fun x => k))
  (at level 10, x name, m at level 100, k at level 200).
Notation "'do' m 'in' k" := (bind m (fun _ => k))
  (at level 10, m at level 100, k at level 200).

(** [_parse_tag]: the value returned ([None], or the working record
    itself on the end tag) and the working record after the call. *)
Definition _parse_tag (P : Parser) (index : nat) (line : pystr)
    (data : dict) : M (option dict * dict) :=
  let tag := take 2 line in
  if decide (tag = START_TAG P) then
    let* inref := get_inref in
    if (inref : bool) then raise (ParserError (missing_end_msg index line))
    else
      let* data' := lift (_add_tag P tag line data) in
      do set_inref true in
      ret (None, data')
  else if decide (tag = END_TAG P) then ret (Some data, data)
  else if decide (is_Some (mapping P !! tag)) then
    let* data' := lift (_add_tag P tag line data) in
    ret (None, data')
  else ret (None, data).

(** The characters of the argument of [lstrip] in [parselines]: the
    literal ["f"] is U+EFEF followed by the letter f. *)
Definition lstrip_chars : pystr := [61423; 102]%N.

(** The line as the loop body sees it. *)
Definition first_line_fix (i : nat) (line : pystr) : pystr :=
  if decide (i = 0) then lstrip lstrip_chars line else line.

(** One iteration of the loop of [parselines] on [(content, data)]. *)
Definition parse_line (P : Parser) (i : nat) (line : pystr)
    (st : list dict * dict) : M (list dict * dict) :=
  let '(content, data) := st in
  let line := first_line_fix i line in
  if bool_decide (strip line = []) then ret (content, data)
  else if pattern_match P line then
    let* r := _parse_tag P i line data in
    let '(returned, data) := r in
    match returned with
    | Some d =>
        if dict_truthy d
        then do set_inref false in ret (content ++ [data], ∅)
        else ret (content, data)
    | None => ret (content, data)
    end
  else ret (content, data).

(** The loop over [enumerate(lines)], from index [i]. *)
Fixpoint parse_loop (P : Parser) (i : nat) (lines : list pystr)
    (st : list dict * dict) : M (list dict * dict) :=
  match lines with
  | [] => ret st
  | line :: lines' =>
      let* st' := parse_line P i line st in
      parse_loop P (S i) lines' st'
  end.

Definition parselines (P : Parser) (lines : list pystr) : M (list dict) :=
  do set_inref false in
  let* st := parse_loop P 0 lines ([], ∅) in
  ret (fst st).

(** ** The RIS parser *)

Definition is_upper (c : N) : bool := ((65 <=? c) && (c <=? 90))%N.
Definition is_digit (c : N) : bool := ((48 <=? c) && (c <=? 57))%N.

(** [re.compile(r"^[A-Z][A-Z0-9]  - |^ER  -\s*$").match(line)]: the
    first alternative reads six code points; the second reads [ER  -]
    and then needs white space up to the end of the string (the [$]
    before a final newline is covered, a newline being white space). *)
Definition ris_pattern_match (line : pystr) : bool :=
  match line with
  | a :: b :: rest =>
      is_upper a && (is_upper b || is_digit b)
      && bool_decide (take 4 rest = [32; 32; 45; 32]%N)
  | _ => false
  end
  || bool_decide (take 5 line = [69; 82; 32; 32; 45]%N)
     && forallb isspace (drop 5 line).

Definition RisParser (mapping : gmap pystr pystr) (list_tags : list pystr)
    (delimiter : gmap pystr (option pystr)) (enforce_list_tags : bool)
    : Parser :=
  {| START_TAG := py "TY";
     END_TAG := py "ER";
     pattern_match := ris_pattern_match;
     content := fun line => VStr (strip (drop 6 line));
     mapping := mapping;
     list_tags := list_tags;
     delimiter := delimiter;
     enforce_list_tags := enforce_list_tags |}.

(** ** The citation renderer *)

(** Comparison of two strings, code point by code point. *)
Fixpoint str_leb (a b : pystr) : bool :=
  match a, b with
  | [], _ => true
  | _ :: _, [] => false
  | x :: a', y :: b' => (x <? y)%N || ((x =? y)%N && str_leb a' b')
  end.

Fixpoint insert_sorted (s : pystr) (l : list pystr) : list pystr :=
  match l with
  | [] => [s]
  | t :: l' => if str_leb s t then s :: l else t :: insert_sorted s l'
  end.

(** [sorted(l)] on strings. *)
Definition sorted (l : list pystr) : list pystr := foldr insert_sorted [] l.

(** [enumerate(l)], with the indices as Python integers. *)
Definition enumerate {A} (l : list A) : list (Z * A) :=
  imap (fun i a => (Z.of_nat i, a)) l.

(** Iterating over a value: a list gives its items, a string its
    characters. *)
Definition iterate (v : pyval) : list pystr :=
  match v with
  | VList l => l
  | VStr s => map (fun c => [c]) s
  end.

(** The slice [s[:-1]]: all of [s] but its last character. *)
Definition drop_last (s : pystr) : pystr := take (length s - 1) s.

Section Cite.
(** [str(l)] of a list of strings, as the f-string applies it to a
    field that holds a list: a built-in of the interpreter. *)
Variable str_of_list : list pystr -> pystr.

Definition format_value (v : pyval) : pystr :=
  match v with
  | VStr s => s
  | VList l => str_of_list l
  end.

(** [record.get(key, '')] inside the f-string. *)
Definition format_get (record : dict) (key : pystr) : pystr :=
  match record !! key with
  | Some v => format_value v
  | None => []
  end.

Definition cite_authors (names : list pystr) : pystr :=
  let authors := map (fun x => rev (split 32 x)) names in
  let n := Z.of_nat (length authors) in
  let sep (i : Z) :=
    if (i =? n - 2)%Z && (1 <? n)%Z then py ", &" else py "," in
  drop_last
    (join (py " ")
       (flat_map
          (fun ia : Z * list pystr =>
             match snd ia with
             | a0 :: a1 :: _ =>
                 [a0 ++ py ", " ++ take 1 a1 ++ py "." ++ sep (fst ia)]
             | _ => []
             end)
          (enumerate authors))).

Definition cite_record (newline : bool) (record : dict) : result pystr :=
  match record !! py "authors" with
  | None => Raise (KeyError (py "authors"))
  | Some v =>
      let authors := cite_authors (iterate v) in
      let rec :=
        authors ++ py " (" ++ format_get record (py "year") ++ py "). "
        ++ format_get record (py "primary_title") ++ py ". "
        ++ format_get record (py "journal_name") ++ py ". "
        ++ format_get record (py "doi") in
      Ok (if newline then rec ++ [10%N] else rec)
  end.

Fixpoint cite_loop (newline : bool) (content : list dict)
    (output : list pystr) : result (list pystr) :=
  match content with
  | [] => Ok output
  | record :: content' =>
      match cite_record newline record with
      | Ok rec => cite_loop newline content' (output ++ [rec])
      | Raise e => Raise e
      end
  end.

Definition cite (content : list dict) (newline : bool) : result pystr :=
  match cite_loop newline content [] with
  | Ok output => Ok (join [10%N] (sorted output))
  | Raise e => Raise e
  end.
End Cite.

(** * Notions used in the statements *)

(** ** Lines, as the loop sees them *)

(** A line that the loop passes to [_parse_tag]: not blank, and matched
    by the pattern. *)
Definition tag_line (P : Parser) (line : pystr) : Prop :=
  strip line ≠ [] ∧ pattern_match P line = true.

(** An end tag line, as [_parse_tag] decides it: the start tag is
    tested first. *)
Definition end_tag_line (P : Parser) (line : pystr) : Prop :=
  tag_line P line ∧ take 2 line ≠ START_TAG P ∧ take 2 line = END_TAG P.

(** How the loop treats the line at index [i]: as a start tag line, as
    an end tag line, or as neither (a blank line, a line the pattern
    does not match, or a line with another tag). *)
Inductive line_kind := KStart | KEnd | KOther.

Definition classify (P : Parser) (i : nat) (line : pystr) : line_kind :=
  let line := first_line_fix i line in
  if bool_decide (strip line = []) then KOther
  else if pattern_match P line then
    if decide (take 2 line = START_TAG P) then KStart
    else if decide (take 2 line = END_TAG P) then KEnd
    else KOther
  else KOther.

(** ** Well-formed record pairs *)

(** Reading the kinds of the lines from index [i] on: [None] when a
    start tag line comes while a record is open or an end tag line
    while none is, else whether a record is open after the last line
    and how many end tag lines were read. *)
Fixpoint scan (P : Parser) (inside : bool) (i : nat) (lines : list pystr)
    : option (bool * nat) :=
  match lines with
  | [] => Some (inside, 0)
  | line :: lines' =>
      match classify P i line with
      | KOther => scan P inside (S i) lines'
      | KStart => if inside then None else scan P true (S i) lines'
      | KEnd =>
          if inside
          then match scan P false (S i) lines' with
               | Some (b, n) => Some (b, S n)
               | None => None
               end
          else None
      end
  end.

(** The input consists of [N] start/end pairs, none inside another and
    the last one closed. *)
Definition record_pairs (P : Parser) (lines : list pystr) (N : nat) : Prop :=
  scan P false 0 lines = Some (false, N).

(** The records come in the order of the end tag lines: when an end tag
    line is reached, the lines before it have been read without a
    fault, a record is open, and the records appended so far, one for
    each earlier end tag line, followed by the working record, are the
    first records of the output. *)
Definition closed_in_order (P : Parser) (lines : list pystr)
    (recs : list dict) : Prop :=
  ∀ pre e post,
    lines = pre ++ e :: post ->
    classify P (length pre) e = KEnd ->
    ∃ content data,
      parse_loop P 0 pre ([], ∅) (Some false)
      = (Ok (content, data), Some true)
      ∧ scan P false 0 pre = Some (true, length content)
      ∧ take (S (length content)) recs = content ++ [data].

(** [parselines] returns [N] records, in the order of the end tag
    lines. *)
Definition returns_records (P : Parser) (lines : list pystr) (N : nat)
    (s : option bool) : Prop :=
  ∃ recs, parselines P lines s = (Ok recs, Some false)
          ∧ length recs = N ∧ closed_in_order P lines recs.

(** ** Faults of the field-add rule *)

(** The faults of the field-add rule that a mapped tag can meet. *)
Definition field_fault (e : exn) : Prop := e = Exception ∨ e = AttributeError.

(** Tables under which the rule cannot fail: no tag has a delimiter,
    and a field name is not shared by a list tag and a scalar tag. *)
Definition fault_free_tables (P : Parser) : Prop :=
  (∀ tag, delimiter_get P tag = None)
  ∧ (∀ t1 t2 name,
       mapping P !! t1 = Some name -> mapping P !! t2 = Some name ->
       t1 ∈ list_tags P -> t2 ∈ list_tags P).

(** The field of a list tag. *)
Definition list_field (P : Parser) (name : pystr) : Prop :=
  ∃ tag, tag ∈ list_tags P ∧ mapping P !! tag = Some name.

(** The fields of list tags hold lists. *)
Definition lists_in_list_fields (P : Parser) (data : dict) : Prop :=
  ∀ name v, list_field P name -> data !! name = Some v -> ∃ l, v = VList l.

(** ** Outcomes up to the line number *)

(** Two outcomes that agree but for the line number in the message of
    a [ParserError], which is one more in the first. *)
Definition same_but_line_number {A} (r1 r2 : result A * option bool)
    : Prop :=
  snd r1 = snd r2 ∧
  match fst r1, fst r2 with
  | Ok a, Ok b => a = b
  | Raise e1, Raise e2 =>
      e1 = e2
      ∨ ∃ k line, e1 = ParserError (missing_end_msg (S k) line)
                  ∧ e2 = ParserError (missing_end_msg k line)
  | _, _ => False
  end.

(** * Configurations and inputs of the examples

    The tables that the module imports from [config] are not part of
    the parser; the theorems are stated for arbitrary tables, and the
    examples use the table below. *)
Definition example_mapping : gmap pystr pystr :=
  list_to_map
    [(py "TY", py "type_of_reference"); (py "AU", py "authors");
     (py "PY", py "year"); (py "T1", py "primary_title");
     (py "JO", py "journal_name"); (py "DO", py "doi");
     (py "UR", py "urls")].

(** [AU] is the one list tag, and no tag has a delimiter. *)
Definition example_parser (enforce : bool) : Parser :=
  RisParser example_mapping [py "AU"] ∅ enforce.


(** A parser whose delimiter table has an entry for a mapped tag. *)
Definition url_delimited_parser : Parser :=
  RisParser example_mapping [py "AU"; py "UR"]
    {[ py "UR" := Some (py ";") ]} true.

(** The first code point of a file that starts with a byte-order mark. *)
Definition BOM : N := 65279%N.

(** The record of the renderer scenario. *)
Definition doe_record : dict :=
  <[py "authors" := VList [py "Doe John"]]>
    (<[py "year" := VStr (py "2020")]>
       (<[py "primary_title" := VStr (py "T")]>
          (<[py "journal_name" := VStr (py "J")]>
             {[ py "doi" := VStr (py "D") ]}))).

(** Two records, with a blank line between them. *)
Definition two_records : list pystr :=
  [py "TY  - JOUR"; py "AU  - Doe John"; py "ER  - "; py "";
   py "TY  - BOOK"; py "AU  - Roe Jane"; py "AU  - Poe Ann"; py "ER  - "].

(** * Notions used in the further properties *)

(** The number of end tag lines among [lines], the first of which has
    index [i]. *)
Fixpoint end_tag_lines (P : Parser) (i : nat) (lines : list pystr) : nat :=
  match lines with
  | [] => 0
  | line :: lines' =>
      match classify P i line with
      | KEnd => S (end_tag_lines P (S i) lines')
      | _ => end_tag_lines P (S i) lines'
      end
  end.

(** A line that the loop leaves alone: it is blank or not matched by
    the pattern, or its tag is neither the start tag, nor the end tag,
    nor in the tag table. *)
Definition inert_line (P : Parser) (line : pystr) : Prop :=
  ¬ tag_line P line
  ∨ (take 2 line ≠ START_TAG P ∧ take 2 line ≠ END_TAG P
     ∧ mapping P !! take 2 line = None).

(** The first line is not changed by the stripping that the loop
    applies at index 0. *)
Definition unstripped_head (lines : list pystr) : Prop :=
  ∀ l, head lines = Some l -> lstrip lstrip_chars l = l.

(** The strings of the working record are values of scalar tags. *)
Definition strings_in_scalar_fields (P : Parser) (data : dict) : Prop :=
  ∀ name str, data !! name = Some (VStr str) ->
              ∃ tag, (tag ∉ list_tags P) ∧ mapping P !! tag = Some name.

(** A parser whose tag table maps a scalar tag and a list tag to the
    same field name. *)
Definition shared_name_parser : Parser :=
  RisParser (<[py "TY" := py "kind"]> {[ py "AU" := py "kind" ]})
    [py "AU"] ∅ true.

(** The order of [sorted] on strings. *)
Definition str_le (a b : pystr) : Prop := str_leb a b = true.

(** The line that [cite] writes for a record that has authors. *)
Definition cite_line (str_of_list : list pystr -> pystr) (newline : bool)
    (record : dict) : pystr :=
  match cite_record str_of_list newline record with
  | Ok rec => rec
  | Raise _ => []
  end.

(** A parser whose tag table maps two scalar tags to the same field
    name. *)
Definition title_alias_parser : Parser :=
  RisParser
    (list_to_map
       [(py "TY", py "type_of_reference"); (py "TI", py "title");
        (py "T1", py "title")])
    [] ∅ true.

(** * Basic facts about the loop *)

Lemma parse_loop_app (P : Parser) (l1 l2 : list pystr) :
  forall i st s,
    parse_loop P i (l1 ++ l2) st s =
    match parse_loop P i l1 st s with
    | (Ok st', s') => parse_loop P (i + length l1) l2 st' s'
    | (Raise e, s') => (Raise e, s')
    end.
Proof.
  induction l1 as [|l l1 IH]; intros i st s; simpl.
  - unfold ret. by rewrite Nat.add_0_r.
  - unfold bind. destruct (parse_line P i l st s) as [[st'|e] s']; [|done].
    rewrite IH. by replace (S i + length l1) with (i + S (length l1)) by lia.
Qed.

Lemma parse_loop_cons (P : Parser) i l ls st s :
  parse_loop P i (l :: ls) st s =
  match parse_line P i l st s with
  | (Ok st', s') => parse_loop P (S i) ls st' s'
  | (Raise e, s') => (Raise e, s')
  end.
Proof. reflexivity. Qed.

Lemma parselines_unfold (P : Parser) lines s :
  parselines P lines s =
  match parse_loop P 0 lines ([], ∅) (Some false) with
  | (Ok st, s') => (Ok (fst st), s')
  | (Raise e, s') => (Raise e, s')
  end.
Proof.
  unfold parselines, bind, set_inref, ret.
  by destruct (parse_loop P 0 lines ([], ∅) (Some false)) as [[st|e] s'].
Qed.

Lemma first_line_fix_pos i line : i ≠ 0 -> first_line_fix i line = line.
Proof. intros Hi. unfold first_line_fix. by destruct (decide (i = 0)). Qed.

Lemma parse_line_tag_line (P : Parser) i line content data s :
  tag_line P (first_line_fix i line) ->
  parse_line P i line (content, data) s =
  match _parse_tag P i (first_line_fix i line) data s with
  | (Ok (Some d, data'), s') =>
      if dict_truthy d then (Ok (content ++ [data'], ∅), Some false)
      else (Ok (content, data'), s')
  | (Ok (None, data'), s') => (Ok (content, data'), s')
  | (Raise e, s') => (Raise e, s')
  end.
Proof.
  intros [Hne Hpat]. unfold parse_line.
  rewrite bool_decide_eq_false_2 by done. rewrite Hpat. unfold bind.
  destruct (_parse_tag P i (first_line_fix i line) data s)
    as [[[[d|] data']|e] s']; try done.
  by destruct (dict_truthy d).
Qed.

Lemma parse_line_skip (P : Parser) i line st s :
  ¬ tag_line P (first_line_fix i line) ->
  parse_line P i line st s = (Ok st, s).
Proof.
  intros Hn. unfold parse_line. destruct st as [content data].
  case_bool_decide as Hb; [done|].
  destruct (pattern_match P (first_line_fix i line)) eqn:Hp; [|done].
  exfalso. apply Hn. by split.
Qed.

(** * The three branches of [_parse_tag] *)

Section ParseTag.
Variable P : Parser.
Variables (index : nat) (line : pystr) (data : dict).

Lemma parse_tag_start_open :
  take 2 line = START_TAG P ->
  _parse_tag P index line data (Some true) =
  (Raise (ParserError (missing_end_msg index line)), Some true).
Proof.
  intros Ht. unfold _parse_tag. by rewrite decide_True by done.
Qed.

Lemma parse_tag_start_closed :
  take 2 line = START_TAG P ->
  _parse_tag P index line data (Some false) =
  match _add_tag P (take 2 line) line data with
  | Ok data' => (Ok (None, data'), Some true)
  | Raise e => (Raise e, Some false)
  end.
Proof.
  intros Ht. unfold _parse_tag. rewrite decide_True by done.
  unfold bind, get_inref, lift, set_inref, ret.
  by destruct (_add_tag P (take 2 line) line data).
Qed.

Lemma parse_tag_end s :
  take 2 line ≠ START_TAG P -> take 2 line = END_TAG P ->
  _parse_tag P index line data s = (Ok (Some data, data), s).
Proof.
  intros Hs He. unfold _parse_tag.
  rewrite decide_False by done. by rewrite decide_True by done.
Qed.

Lemma parse_tag_mapped s :
  take 2 line ≠ START_TAG P -> take 2 line ≠ END_TAG P ->
  is_Some (mapping P !! take 2 line) ->
  _parse_tag P index line data s =
  match _add_tag P (take 2 line) line data with
  | Ok data' => (Ok (None, data'), s)
  | Raise e => (Raise e, s)
  end.
Proof.
  intros Hs He Hm. unfold _parse_tag.
  rewrite !decide_False by done. rewrite decide_True by done.
  unfold bind, lift, ret.
  by destruct (_add_tag P (take 2 line) line data).
Qed.

Lemma parse_tag_unmapped s :
  take 2 line ≠ START_TAG P -> take 2 line ≠ END_TAG P ->
  mapping P !! take 2 line = None ->
  _parse_tag P index line data s = (Ok (None, data), s).
Proof.
  intros Hs He Hm. unfold _parse_tag.
  rewrite !decide_False; try done.
  rewrite Hm. by intros [? ?].
Qed.
End ParseTag.

(** The flag can only be set by a line: at the start of the loop it is
    false. *)
Lemma open_record_prefix_nonempty (P : Parser) pre st :
  parse_loop P 0 pre ([], ∅) (Some false) = (Ok st, Some true) -> pre ≠ [].
Proof. by destruct pre. Qed.

(** * Delimiter fault *)





(** * No state survives a call *)

(** C9. Whatever the value of [self.inref] before the call (absent on a
    fresh instance, or left by an earlier call, also one that ended in a
    fault or with a record still open), [parselines] gives the same
    result and leaves the same value behind: a second call on an
    instance cannot be told from a first call on a fresh instance with
    the same configuration. *)
Theorem parselines_independent_of_earlier_calls (P : Parser)
    (lines1 lines2 : list pystr) (s : option bool) :
  parselines P lines2 (snd (parselines P lines1 s)) = parselines P lines2 None.
Proof. by rewrite !parselines_unfold. Qed.

(** A first call that stops with a record open, and one that stops in a
    fault, both leave the flag set. *)
Example flag_left_set_by_open_record :
  snd (parselines (example_parser true) [py "TY  - JOUR"] None) = Some true
  ∧ snd (parselines (example_parser true)
           [py "TY  - JOUR"; py "TY  - BOOK"] None) = Some true.
Proof. split; vm_compute; reflexivity. Qed.

(** * Fields read outside a record *)



(** * The byte-order mark *)

(** The code point U+FEFF is not among the characters that [parselines]
    strips from the first line, so a first line that starts with it is
    left as it is. *)
Lemma BOM_not_stripped (line : pystr) :
  first_line_fix 0 (BOM :: line) = BOM :: line.
Proof. reflexivity. Qed.

(** Such a line is no tag line for the RIS pattern. *)
Lemma BOM_line_not_matched (line : pystr) :
  ris_pattern_match (BOM :: line) = false.
Proof.
  unfold ris_pattern_match. apply orb_false_iff. split.
  - by destruct line.
  - apply andb_false_iff. left. by apply bool_decide_eq_false_2.
Qed.

(** Whatever the tables, the RIS parser skips a first line that starts
    with the mark. *)
Lemma BOM_first_line_skipped mapping list_tags delimiter enforce
    (line : pystr) st s :
  parse_line (RisParser mapping list_tags delimiter enforce) 0
    (BOM :: line) st s = (Ok st, s).
Proof.
  apply parse_line_skip. rewrite BOM_not_stripped. intros [_ Hp].
  simpl in Hp. by rewrite BOM_line_not_matched in Hp.
Qed.

(** C5 at a file that starts with a byte-order mark: the mark is not
    removed, the first line is not recognised as the start tag line, no
    field is stored for it, and the record, having no field by the time
    the end tag is read, is not returned. With the mark removed by hand
    the same lines give one record. *)
Theorem BOM_first_line_is_dropped :
  parselines (example_parser true)
    [BOM :: py "TY  - JOUR"; py "ER  - "] None = (Ok [], Some false)
  ∧ parselines (example_parser true)
      [py "TY  - JOUR"; py "ER  - "] None =
    (Ok [ {[ py "type_of_reference" := VStr (py "JOUR") ]} ], Some false).
Proof. split; vm_compute; reflexivity. Qed.

(** What the call does strip: the letter f (and U+EFEF). *)
Example leading_f_is_stripped :
  first_line_fix 0 (py "ffTY  - JOUR") = py "TY  - JOUR"
  ∧ parselines (example_parser true)
      [py "fTY  - JOUR"; py "ER  - "] None =
    (Ok [ {[ py "type_of_reference" := VStr (py "JOUR") ]} ], Some false).
Proof. split; vm_compute; reflexivity. Qed.

(** * Scalar fields: the first value stays *)

Lemma add_single_tag_present (P : Parser) name value data :
  is_Some (data !! name) -> _add_single_tag P name value data = data.
Proof.
  intros [w Hw]. unfold _add_single_tag, setdefault. rewrite Hw.
  by destruct (_ || _).
Qed.

Lemma add_single_tag_absent (P : Parser) name value data :
  data !! name = None ->
  _add_single_tag P name value data = <[name := value]> data.
Proof.
  intros Hn. unfold _add_single_tag, setdefault. rewrite Hn.
  rewrite bool_decide_eq_true_2 by done. by rewrite orb_true_r.
Qed.

(** The same through the whole parser, for both values of the flag. *)
Example scalar_field_first_wins_parsed (enforce : bool) :
  parselines (example_parser enforce)
    [py "TY  - JOUR"; py "T1  - A"; py "T1  - B"; py "ER  - "] None =
  (Ok [ <[py "primary_title" := VStr (py "A")]>
          {[ py "type_of_reference" := VStr (py "JOUR") ]} ], Some false).
Proof. destruct enforce; vm_compute; reflexivity. Qed.

(** * List fields: values accumulate *)

Lemma add_list_tag_fresh name value data :
  truthy_get data name = false ->
  _add_list_tag name value data = Ok (<[name := VList (as_list value)]> data).
Proof. intros Hf. unfold _add_list_tag. by rewrite Hf. Qed.

Lemma add_list_tag_extend name value data l :
  data !! name = Some (VList l) ->
  _add_list_tag name value data
  = Ok (<[name := VList (l ++ as_list value)]> data).
Proof.
  intros Hl. unfold _add_list_tag, truthy_get. rewrite Hl. simpl.
  case_bool_decide as Hnil; simpl; [|done]. by subst l.
Qed.

(** The scenario of the specification, through the whole parser. *)
Example round_trip_scenario :
  parselines (example_parser true)
    [py "TY  - JOUR"; py "AU  - Doe John"; py "AU  - Roe Jane";
     py "PY  - 2020"; py "ER  -"] None =
  (Ok [ <[py "type_of_reference" := VStr (py "JOUR")]>
          (<[py "authors" := VList [py "Doe John"; py "Roe Jane"]]>
             {[ py "year" := VStr (py "2020") ]}) ], Some false).
Proof. vm_compute. reflexivity. Qed.

(** * The renderer scenario *)

(** C8, as stated, fails: for the record of the scenario [cite] does
    not give the line that starts with [Doe, J.]; the words of the name
    are reversed before the first is written in full and the second
    abbreviated, so the line starts with [John, D.]. *)
Lemma cite_scenario_differs :
  (∀ str_of_list,
     cite str_of_list [doe_record] true
     = Ok (py "John, D. (2020). T. J. D" ++ [10%N]))
  ∧ py "John, D. (2020). T. J. D" ++ [10%N]
    ≠ py "Doe, J. (2020). T. J. D" ++ [10%N].
Proof. split; [intros f; vm_compute; reflexivity | vm_compute; discriminate]. Qed.

(** C8, amended. For the record of the scenario [cite] gives
    [John, D. (2020). T. J. D], with a newline after it when [newline]
    is set and without when it is not. *)
Theorem cite_scenario (str_of_list : list pystr -> pystr) :
  cite str_of_list [doe_record] true
  = Ok (py "John, D. (2020). T. J. D" ++ [10%N])
  ∧ cite str_of_list [doe_record] false
    = Ok (py "John, D. (2020). T. J. D").
Proof. split; vm_compute; reflexivity. Qed.

(** The line of the specification is what [cite] gives when the name is
    written given name first. *)
Example cite_given_name_first (str_of_list : list pystr -> pystr) :
  cite str_of_list
    [<[py "authors" := VList [py "John Doe"]]> doe_record] false
  = Ok (py "Doe, J. (2020). T. J. D").
Proof. vm_compute. reflexivity. Qed.

(** * An end tag with no record open *)

Lemma parse_line_end_tag (P : Parser) i line content data s :
  end_tag_line P (first_line_fix i line) ->
  parse_line P i line (content, data) s =
  if dict_truthy data then (Ok (content ++ [data], ∅), Some false)
  else (Ok (content, data), s).
Proof.
  intros (Htag & Hs & He). rewrite parse_line_tag_line by done.
  by rewrite parse_tag_end.
Qed.

Lemma same_but_line_number_refl {A} (r : result A * option bool) :
  same_but_line_number r r.
Proof. split; [done|]. destruct (fst r); [done|by left]. Qed.

Lemma parse_tag_shift (P : Parser) i line data s :
  same_but_line_number (_parse_tag P (S i) line data s)
    (_parse_tag P i line data s).
Proof.
  unfold _parse_tag. destruct (decide (take 2 line = START_TAG P)).
  - destruct s as [[|]|]; try apply same_but_line_number_refl.
    split; [done|]. right. by exists i, line.
  - apply same_but_line_number_refl.
Qed.

Lemma parse_line_shift (P : Parser) i line st s :
  first_line_fix i line = line ->
  same_but_line_number (parse_line P (S i) line st s)
    (parse_line P i line st s).
Proof.
  intros Hfix. destruct st as [content data].
  destruct (decide (tag_line P line)) as [Htag|Hn].
  - rewrite !parse_line_tag_line
      by (rewrite ?Hfix, ?first_line_fix_pos by done; done).
    rewrite Hfix, first_line_fix_pos by done.
    destruct (parse_tag_shift P i line data s) as [Hs Hr].
    destruct (_parse_tag P (S i) line data s) as [[[[d|] d1]|e1] s1],
      (_parse_tag P i line data s) as [[[[d'|] d2]|e2] s2];
      simpl in *; try done; simplify_eq; try apply same_but_line_number_refl.
  - rewrite !parse_line_skip
      by (rewrite ?Hfix, ?first_line_fix_pos by done; done).
    apply same_but_line_number_refl.
Qed.

Lemma parse_loop_shift (P : Parser) lines :
  forall i st s,
    (i ≠ 0 ∨ ∀ l, head lines = Some l -> lstrip lstrip_chars l = l) ->
    same_but_line_number (parse_loop P (S i) lines st s)
      (parse_loop P i lines st s).
Proof.
  induction lines as [|l lines IH]; intros i st s Hi.
  - apply same_but_line_number_refl.
  - rewrite !parse_loop_cons.
    assert (Hfix : first_line_fix i l = l).
    { unfold first_line_fix. destruct (decide (i = 0)); [|done].
      destruct Hi as [?|Hh]; [done|]. by apply Hh. }
    destruct (parse_line_shift P i l st s Hfix) as [Hs Hr].
    destruct (parse_line P (S i) l st s) as [[st1|e1] s1],
      (parse_line P i l st s) as [[st2|e2] s2]; simpl in *; try done.
    subst. apply IH. by left.
Qed.

(** C2, as stated, fails: the fields of mapped tag lines read while no
    record is open are kept in the working record, and an end tag line
    read then, the flag still being false, returns them as a record.
    Without that line nothing is returned. *)
Lemma end_tag_with_no_open_record_emits :
  parse_loop (example_parser true) 0 [py "AU  - Doe John"] ([], ∅)
    (Some false)
  = (Ok ([], {[ py "authors" := VList [py "Doe John"] ]}), Some false)
  ∧ parselines (example_parser true)
      [py "AU  - Doe John"; py "ER  - "] None
    = (Ok [ {[ py "authors" := VList [py "Doe John"] ]} ], Some false)
  ∧ parselines (example_parser true) [py "AU  - Doe John"] None
    = (Ok [], Some false).
Proof. repeat split; vm_compute; reflexivity. Qed.

(** Removing a first line makes the next line the one that is stripped
    of leading characters, which can turn it into a tag line. *)
Example end_tag_first_line_removed :
  parselines (example_parser true)
    [py "ER  - "; py "fTY  - JOUR"; py "ER  - "] None = (Ok [], Some false)
  ∧ parselines (example_parser true)
      [py "fTY  - JOUR"; py "ER  - "] None
    = (Ok [ {[ py "type_of_reference" := VStr (py "JOUR") ]} ], Some false).
Proof. split; vm_compute; reflexivity. Qed.

Lemma parselines_same_but_line_number (P : Parser) l1 l2 s :
  same_but_line_number (parse_loop P 0 l1 ([], ∅) (Some false))
    (parse_loop P 0 l2 ([], ∅) (Some false)) ->
  same_but_line_number (parselines P l1 s) (parselines P l2 s).
Proof.
  rewrite !parselines_unfold. intros [Hs Hr].
  destruct (parse_loop P 0 l1 _ _) as [[st1|e1] s1],
    (parse_loop P 0 l2 _ _) as [[st2|e2] s2]; simpl in *; try done.
  by subst.
Qed.

(** C2, amended. Let the lines before an end tag line have been read
    without a fault and have left the inside-record flag false. Reading
    the end tag line raises nothing. If the working record is empty it
    changes nothing, and the parse ends as it does for the input
    without that line: same records, same fault if any, but for the
    line number in the message of a later [ParserError] (here the line
    is not the first one, or the line after it is not changed by the
    stripping applied to a first line). If the working record holds
    fields, it is appended to the output as a record. *)
Theorem end_tag_with_no_open_record (P : Parser) (pre post : list pystr)
    (e : pystr) (content : list dict) (data : dict) (s : option bool) :
  parse_loop P 0 pre ([], ∅) (Some false)
  = (Ok (content, data), Some false) ->
  end_tag_line P (first_line_fix (length pre) e) ->
  parse_line P (length pre) e (content, data) (Some false)
  = (Ok (if dict_truthy data then (content ++ [data], ∅)
         else (content, data)), Some false)
  ∧ (data = ∅ ->
     pre ≠ [] ∨ (∀ l, head post = Some l -> lstrip lstrip_chars l = l) ->
     same_but_line_number (parselines P (pre ++ e :: post) s)
       (parselines P (pre ++ post) s)).
Proof.
  intros Hpre Hend. split.
  - rewrite parse_line_end_tag by done. by destruct (dict_truthy data).
  - intros -> Hfirst. apply parselines_same_but_line_number.
    rewrite !parse_loop_app, Hpre, Nat.add_0_l, parse_loop_cons.
    rewrite parse_line_end_tag by done.
    unfold dict_truthy. rewrite bool_decide_eq_true_2 by done. simpl.
    apply parse_loop_shift. destruct Hfirst as [Hne|Hh]; [left|by right].
    by destruct pre.
Qed.

Lemma end_tag_with_no_open_record_witness :
  same_but_line_number
    (parselines (example_parser true)
       ([py "TY  - JOUR"; py "ER  - "] ++ py "ER  - "
        :: [py "TY  - BOOK"; py "TY  - JOUR"]) None)
    (parselines (example_parser true)
       ([py "TY  - JOUR"; py "ER  - "]
        ++ [py "TY  - BOOK"; py "TY  - JOUR"]) None).
Proof.
  destruct (end_tag_with_no_open_record (example_parser true)
              [py "TY  - JOUR"; py "ER  - "]
              [py "TY  - BOOK"; py "TY  - JOUR"] (py "ER  - ")
              [ {[ py "type_of_reference" := VStr (py "JOUR") ]} ] ∅ None)
    as [_ H].
  - vm_compute. reflexivity.
  - split; [split|split]; vm_compute; (reflexivity || discriminate).
  - apply H; [reflexivity | left; discriminate].
Defined.

(** * Well-formed record pairs *)

Lemma add_list_tag_fault name value data e :
  _add_list_tag name value data = Raise e -> e = AttributeError.
Proof.
  unfold _add_list_tag. destruct (negb _); [done|].
  destruct (data !! name) as [[?|?]|]; congruence.
Qed.

Lemma add_tag_fault (P : Parser) tag line data e :
  is_Some (mapping P !! tag) ->
  _add_tag P tag line data = Raise e -> field_fault e.
Proof.
  intros [name Hm]. unfold _add_tag. rewrite Hm.
  destruct (delimiter_get P tag); [intros [= <-]; by left|].
  case_bool_decide as Hl; [|done].
  intros Hr%add_list_tag_fault. by right.
Qed.

Lemma add_single_tag_nonempty (P : Parser) name value data :
  _add_single_tag P name value data ≠ ∅.
Proof.
  destruct (data !! name) as [w|] eqn:Hw.
  - rewrite add_single_tag_present by eauto. intros ->.
    by rewrite lookup_empty in Hw.
  - rewrite add_single_tag_absent by done. apply insert_non_empty.
Qed.

Lemma add_list_tag_nonempty name value data data' :
  _add_list_tag name value data = Ok data' -> data' ≠ ∅.
Proof.
  unfold _add_list_tag. destruct (negb _).
  - intros [= <-]. apply insert_non_empty.
  - destruct (data !! name) as [[?|?]|]; try done.
    intros [= <-]. apply insert_non_empty.
Qed.

Lemma add_tag_nonempty (P : Parser) tag line data data' :
  _add_tag P tag line data = Ok data' -> data' ≠ ∅.
Proof.
  unfold _add_tag. destruct (mapping P !! tag); [|done].
  destruct (delimiter_get P tag); [done|].
  case_bool_decide.
  - apply add_list_tag_nonempty.
  - intros [= <-]. apply add_single_tag_nonempty.
Qed.

(** ** What one line does, by its kind *)

Section ParseLineByKind.
Variable P : Parser.
Variables (i : nat) (line : pystr) (content : list dict) (data : dict).

Lemma classify_start :
  classify P i line = KStart ->
  tag_line P (first_line_fix i line)
  ∧ take 2 (first_line_fix i line) = START_TAG P.
Proof.
  unfold classify, tag_line. case_bool_decide; [done|].
  destruct (pattern_match P _); [|done].
  destruct (decide (_ = START_TAG P)); [done|].
  by destruct (decide (_ = END_TAG P)).
Qed.

Lemma classify_end :
  classify P i line = KEnd -> end_tag_line P (first_line_fix i line).
Proof.
  unfold classify, end_tag_line, tag_line. case_bool_decide; [done|].
  destruct (pattern_match P _); [|done].
  destruct (decide (_ = START_TAG P)); [done|].
  by destruct (decide (_ = END_TAG P)).
Qed.

Lemma classify_other :
  classify P i line = KOther ->
  ¬ tag_line P (first_line_fix i line)
  ∨ (tag_line P (first_line_fix i line)
     ∧ take 2 (first_line_fix i line) ≠ START_TAG P
     ∧ take 2 (first_line_fix i line) ≠ END_TAG P).
Proof.
  unfold classify, tag_line. case_bool_decide as Hb.
  { intros _. left. by intros [? _]. }
  destruct (pattern_match P _) eqn:Hp.
  - destruct (decide (_ = START_TAG P)); [done|].
    destruct (decide (_ = END_TAG P)); [done|]. intros _. by right.
  - intros _. left. by intros [_ ?].
Qed.

Lemma parse_line_other s :
  classify P i line = KOther ->
  (∃ data', parse_line P i line (content, data) s
            = (Ok (content, data'), s)
            ∧ (data ≠ ∅ -> data' ≠ ∅))
  ∨ (∃ e, parse_line P i line (content, data) s = (Raise e, s)
          ∧ field_fault e).
Proof.
  intros [Hn|(Htag & Hs & He)]%classify_other.
  - left. exists data. by rewrite parse_line_skip.
  - rewrite parse_line_tag_line by done.
    destruct (mapping P !! take 2 (first_line_fix i line)) as [name|] eqn:Hm.
    + rewrite parse_tag_mapped by eauto.
      destruct (_add_tag P _ _ data) as [data'|e] eqn:Hadd.
      * left. exists data'. split; [done|]. intros _.
        by eapply add_tag_nonempty.
      * right. exists e. split; [done|]. eapply add_tag_fault; eauto.
    + rewrite parse_tag_unmapped by done. left. by exists data.
Qed.

Lemma parse_line_start :
  classify P i line = KStart ->
  is_Some (mapping P !! START_TAG P) ->
  (∃ data', parse_line P i line (content, data) (Some false)
            = (Ok (content, data'), Some true) ∧ data' ≠ ∅)
  ∨ (∃ e, parse_line P i line (content, data) (Some false)
          = (Raise e, Some false) ∧ field_fault e).
Proof.
  intros [Htag Hs]%classify_start Hm.
  rewrite parse_line_tag_line by done.
  rewrite parse_tag_start_closed by done.
  destruct (_add_tag P _ _ data) as [data'|e] eqn:Hadd.
  - left. exists data'. split; [done|]. by eapply add_tag_nonempty.
  - right. exists e. split; [done|].
    eapply add_tag_fault; [|done]. by rewrite Hs.
Qed.

Lemma parse_line_end s :
  classify P i line = KEnd -> data ≠ ∅ ->
  parse_line P i line (content, data) s
  = (Ok (content ++ [data], ∅), Some false).
Proof.
  intros Hend%classify_end Hne. rewrite parse_line_end_tag by done.
  unfold dict_truthy. by rewrite bool_decide_eq_false_2.
Qed.
End ParseLineByKind.

(** The loop follows [scan]: unless a field-add fault stops it, it ends
    with the flag [scan] computes and has appended as many records as
    [scan] counts end tag lines. *)
Lemma parse_loop_scan (P : Parser) (lines : list pystr) :
  is_Some (mapping P !! START_TAG P) ->
  forall i inside content data b n,
    scan P inside i lines = Some (b, n) ->
    (inside = true -> data ≠ ∅) ->
    (∃ new data',
        parse_loop P i lines (content, data) (Some inside)
        = (Ok (content ++ new, data'), Some b)
        ∧ length new = n ∧ (b = true -> data' ≠ ∅))
    ∨ (∃ e s', parse_loop P i lines (content, data) (Some inside)
               = (Raise e, s') ∧ field_fault e).
Proof.
  intros Hm. induction lines as [|l lines IH];
    intros i inside content data b n Hscan Hdata.
  - simpl in Hscan. injection Hscan as <- <-. left. exists [], data.
    by rewrite app_nil_r.
  - rewrite parse_loop_cons. simpl in Hscan.
    destruct (classify P i l) eqn:Hk.
    + destruct inside; [done|].
      destruct (parse_line_start P i l content data Hk Hm)
        as [(data1 & -> & Hne)|(e & -> & Hf)]; [|right; eauto].
      by apply IH.
    + destruct inside; [|done].
      rewrite (parse_line_end P i l content data _ Hk) by auto.
      destruct (scan P false (S i) lines) as [[b' n']|] eqn:Hrest; [|done].
      injection Hscan as <- <-.
      destruct (IH (S i) false (content ++ [data]) ∅ b' n' Hrest)
        as [(new & data' & -> & Hlen & Hb)|Hfault]; [done| |by right].
      left. exists (data :: new), data'. rewrite <- app_assoc. simpl.
      by rewrite Hlen.
    + destruct (parse_line_other P i l content data (Some inside) Hk)
        as [(data1 & -> & Hne)|(e & -> & Hf)]; [|right; eauto].
      apply IH; [done|]. auto.
Qed.

Lemma scan_app (P : Parser) (l1 l2 : list pystr) :
  forall inside i,
    scan P inside i (l1 ++ l2) =
    match scan P inside i l1 with
    | Some (b, n1) =>
        match scan P b (i + length l1) l2 with
        | Some (b', n2) => Some (b', n1 + n2)
        | None => None
        end
    | None => None
    end.
Proof.
  induction l1 as [|l l1 IH]; intros inside i; simpl.
  - rewrite Nat.add_0_r. by destruct (scan P inside i l2) as [[? ?]|].
  - replace (i + S (length l1)) with (S i + length l1) by lia.
    destruct (classify P i l), inside; try done; rewrite IH; try done.
    destruct (scan P false (S i) l1) as [[b n1]|]; [|done].
    by destruct (scan P b (S i + length l1) l2) as [[? ?]|].
Qed.

Lemma record_pairs_outcome (P : Parser) (lines : list pystr) (N : nat)
    (s : option bool) :
  record_pairs P lines N ->
  is_Some (mapping P !! START_TAG P) ->
  returns_records P lines N s
  ∨ (∃ e s', parselines P lines s = (Raise e, s') ∧ field_fault e).
Proof.
  intros Hpairs Hm. unfold returns_records. rewrite parselines_unfold.
  destruct (parse_loop_scan P lines Hm 0 false [] ∅ false N Hpairs)
    as [(recs & data' & Hrun & Hlen & _)|(e & s' & Hrun & Hf)]; [done| |].
  2:{ right. exists e, s'. by rewrite Hrun. }
  left. exists recs. rewrite Hrun.
  split; [done|]. split; [done|].
  intros pre e post -> Hk.
  unfold record_pairs in Hpairs. rewrite scan_app in Hpairs.
  destruct (scan P false 0 pre) as [[b n1]|] eqn:Hpre; [|done].
  rewrite Nat.add_0_l in Hpairs. cbn [scan] in Hpairs.
  rewrite Hk in Hpairs. destruct b; [|done].
  destruct (scan P false (S (length pre)) post) as [[b' n2]|] eqn:Hpost;
    [|done].
  rewrite parse_loop_app in Hrun.
  destruct (parse_loop_scan P pre Hm 0 false [] ∅ true n1 Hpre)
    as [(content & data & Hrun1 & Hlen1 & Hne)|(e1 & s1 & Hrun1 & _)];
    [done| |by rewrite Hrun1 in Hrun].
  rewrite Hrun1 in Hrun. rewrite Nat.add_0_l, parse_loop_cons in Hrun.
  rewrite app_nil_l in Hrun.
  rewrite (parse_line_end P _ e content data _ Hk) in Hrun by auto.
  destruct (parse_loop_scan P post Hm (S (length pre)) false
              (content ++ [data]) ∅ b' n2 Hpost)
    as [(new & data2 & Hrun2 & _)|(e2 & s2 & Hrun2 & _)];
    [done| |by rewrite Hrun2 in Hrun].
  rewrite Hrun2 in Hrun. injection Hrun as <- _ _.
  exists content, data. rewrite app_nil_l in Hrun1.
  split; [done|]. split; [by rewrite Hlen1|].
  replace (S (length content)) with (length (content ++ [data]))
    by (rewrite length_app; simpl; lia).
  by rewrite take_app_length.
Qed.

(** ** Tables under which the field-add rule cannot fail *)

Lemma lists_in_list_fields_empty (P : Parser) : lists_in_list_fields P ∅.
Proof. intros name v _ Hl. by rewrite lookup_empty in Hl. Qed.

Lemma lists_in_list_fields_insert_list (P : Parser) data name l :
  lists_in_list_fields P data ->
  lists_in_list_fields P (<[name := VList l]> data).
Proof.
  intros HJ name' v Hf Hl. destruct (decide (name = name')) as [->|Hne].
  - rewrite lookup_insert_eq in Hl. injection Hl as <-. eauto.
  - rewrite lookup_insert_ne in Hl by done. eauto.
Qed.

Lemma add_tag_fault_free (P : Parser) tag line data :
  fault_free_tables P ->
  is_Some (mapping P !! tag) ->
  lists_in_list_fields P data ->
  ∃ data', _add_tag P tag line data = Ok data'
           ∧ lists_in_list_fields P data'.
Proof.
  intros [Hdel Hclash] [name Hm] HJ. unfold _add_tag.
  rewrite Hm, Hdel. case_bool_decide as Hl.
  - destruct (truthy_get data name) eqn:Ht.
    + unfold truthy_get in Ht.
      destruct (data !! name) as [v|] eqn:Hv; [|done].
      destruct (HJ name v) as [l ->]; [by exists tag|done|].
      rewrite (add_list_tag_extend _ _ _ l) by done.
      eexists. split; [done|]. by apply lists_in_list_fields_insert_list.
    + rewrite add_list_tag_fresh by done.
      eexists. split; [done|]. by apply lists_in_list_fields_insert_list.
  - eexists. split; [done|].
    destruct (data !! name) as [w|] eqn:Hw.
    + by rewrite add_single_tag_present by eauto.
    + rewrite add_single_tag_absent by done.
      intros name' v [t [Ht Hmt]] Hlk.
      destruct (decide (name = name')) as [->|Hne].
      * exfalso. apply Hl. by apply (Hclash t tag name').
      * rewrite lookup_insert_ne in Hlk by done. apply (HJ name'); [|done].
        by exists t.
Qed.

Lemma parse_line_fault_free (P : Parser) i line content data (b : bool) :
  fault_free_tables P ->
  lists_in_list_fields P data ->
  (∃ content' data' b',
      parse_line P i line (content, data) (Some b)
      = (Ok (content', data'), Some b')
      ∧ lists_in_list_fields P data')
  ∨ (∃ e s', parse_line P i line (content, data) (Some b) = (Raise e, s')
             ∧ ¬ field_fault e).
Proof.
  intros Hff HJ.
  destruct (decide (tag_line P (first_line_fix i line))) as [Htag|Hn].
  2:{ left. exists content, data, b. by rewrite parse_line_skip. }
  rewrite parse_line_tag_line by done.
  set (l := first_line_fix i line) in *.
  destruct (decide (take 2 l = START_TAG P)) as [Hs|Hs].
  - destruct b.
    + right. rewrite parse_tag_start_open by done.
      do 2 eexists. split; [done|]. by intros [?|?].
    + rewrite parse_tag_start_closed by done.
      destruct (mapping P !! take 2 l) as [name|] eqn:Hm.
      * destruct (add_tag_fault_free P (take 2 l) l data Hff) as
          (data' & -> & HJ'); [eauto|done|].
        left. by exists content, data', true.
      * right. unfold _add_tag. rewrite Hm.
        do 2 eexists. split; [done|]. by intros [?|?].
  - destruct (decide (take 2 l = END_TAG P)) as [He|He].
    + rewrite parse_tag_end by done. left.
      destruct (dict_truthy data).
      * exists (content ++ [data]), ∅, false. split; [done|].
        apply lists_in_list_fields_empty.
      * by exists content, data, b.
    + destruct (mapping P !! take 2 l) as [name|] eqn:Hm.
      * rewrite parse_tag_mapped by eauto.
        destruct (add_tag_fault_free P (take 2 l) l data Hff) as
          (data' & -> & HJ'); [eauto|done|].
        left. by exists content, data', b.
      * rewrite parse_tag_unmapped by done.
        left. by exists content, data, b.
Qed.

Lemma parse_loop_fault_free (P : Parser) (lines : list pystr) :
  fault_free_tables P ->
  forall i content data (b : bool) e s',
    lists_in_list_fields P data ->
    parse_loop P i lines (content, data) (Some b) = (Raise e, s') ->
    ¬ field_fault e.
Proof.
  intros Hff. induction lines as [|l lines IH];
    intros i content data b e s' HJ Hrun; [done|].
  rewrite parse_loop_cons in Hrun.
  destruct (parse_line_fault_free P i l content data b Hff HJ)
    as [(content' & data' & b' & Hline & HJ')|(e' & s'' & Hline & Hnf)];
    rewrite Hline in Hrun.
  - by eapply IH.
  - by injection Hrun as <- _.
Qed.

(** C1, as stated, fails: one well-formed pair whose start tag is in
    the tag table, and the parse returns no record but stops in the
    fault of the delimiter check. *)
Lemma well_formed_pair_delimiter_fault :
  record_pairs url_delimited_parser
    [py "TY  - JOUR"; py "UR  - http://a"; py "ER  - "] 1
  ∧ is_Some (mapping url_delimited_parser !! START_TAG url_delimited_parser)
  ∧ parselines url_delimited_parser
      [py "TY  - JOUR"; py "UR  - http://a"; py "ER  - "] None
    = (Raise Exception, Some true).
Proof.
  split; [|split].
  - vm_compute. reflexivity.
  - exists (py "type_of_reference"). vm_compute. reflexivity.
  - vm_compute. reflexivity.
Qed.

(** C1, amended. For an input of [N] start/end pairs, none inside
    another, read by a parser whose tag table has [START_TAG]:
    [parselines] either returns exactly [N] records, in the order of
    their end tag lines, or stops in a fault of the field-add rule (the
    delimiter check, or a list tag meeting a scalar value); and it is
    the former whenever no tag has a delimiter and no field name is
    shared by a list tag and a scalar tag. *)
Theorem well_formed_pairs_give_records (P : Parser) (lines : list pystr)
    (N : nat) (s : option bool) :
  record_pairs P lines N ->
  is_Some (mapping P !! START_TAG P) ->
  (returns_records P lines N s
   ∨ ∃ e s', parselines P lines s = (Raise e, s') ∧ field_fault e)
  ∧ (fault_free_tables P -> returns_records P lines N s).
Proof.
  intros Hpairs Hm.
  pose proof (record_pairs_outcome P lines N s Hpairs Hm) as Hout.
  split; [done|]. intros Hff.
  destruct Hout as [Hok|(e & s' & Hrun & Hf)]; [done|].
  exfalso. rewrite parselines_unfold in Hrun.
  destruct (parse_loop P 0 lines ([], ∅) (Some false)) as [[st|e0] s0] eqn:Hl;
    [done|].
  injection Hrun as -> _.
  by eapply (parse_loop_fault_free P lines Hff 0 [] ∅ false e s0
               (lists_in_list_fields_empty P)).
Qed.

Lemma example_parser_fault_free enforce :
  fault_free_tables (example_parser enforce).
Proof.
  split; [done|]. intros t1 t2 name H1 H2 Hl.
  apply list_elem_of_singleton in Hl as ->.
  vm_compute in H1. injection H1 as <-.
  simpl. apply list_elem_of_singleton.
  unfold example_parser, RisParser, mapping, example_mapping in H2.
  apply elem_of_list_to_map_2, list_elem_of_In in H2. simpl in H2.
  destruct H2 as [H2|[H2|[H2|[H2|[H2|[H2|[H2|[]]]]]]]];
    vm_compute in H2; by simplify_eq.
Qed.

Lemma well_formed_pairs_give_records_witness :
  returns_records (example_parser true) two_records 2 None.
Proof.
  apply (well_formed_pairs_give_records (example_parser true) two_records
           2 None).
  - vm_compute. reflexivity.
  - exists (py "type_of_reference"). vm_compute. reflexivity.
  - apply example_parser_fault_free.
Defined.


(** * Further properties of the parser *)

(** ** Where records come from *)

Lemma parse_line_appends (P : Parser) i line content data s
    content' data' s' :
  parse_line P i line (content, data) s = (Ok (content', data'), s') ->
  content' = content
  ∨ (classify P i line = KEnd ∧ data ≠ ∅ ∧ content' = content ++ [data]
     ∧ data' = ∅ ∧ s' = Some false).
Proof.
  destruct (classify P i line) eqn:Hk.
  - apply classify_start in Hk as [Htag Hs].
    rewrite parse_line_tag_line by done. unfold _parse_tag.
    rewrite decide_True by done. unfold bind, get_inref, lift, set_inref, ret.
    destruct s as [[|]|]; try done.
    destruct (_add_tag P _ _ data); [|done]. intros [= <- _ _]. by left.
  - rewrite parse_line_end_tag by by apply classify_end.
    unfold dict_truthy. case_bool_decide as Hd; simpl.
    + intros [= <- _ _]. by left.
    + intros [= <- <- <-]. by right.
  - apply classify_other in Hk as [Hn|(Htag & Hs & He)].
    + rewrite parse_line_skip by done. intros [= <- _ _]. by left.
    + rewrite parse_line_tag_line by done.
      destruct (mapping P !! take 2 (first_line_fix i line)) eqn:Hm.
      * rewrite parse_tag_mapped by eauto.
        destruct (_add_tag P _ _ data); [|done]. intros [= <- _ _]. by left.
      * rewrite parse_tag_unmapped by done. intros [= <- _ _]. by left.
Qed.

Lemma parse_loop_appends (P : Parser) (lines : list pystr) :
  forall i content data s content' data' s',
    parse_loop P i lines (content, data) s = (Ok (content', data'), s') ->
    ∃ new, content' = content ++ new
           ∧ Forall (λ r : dict, r ≠ ∅) new
           ∧ length new ≤ end_tag_lines P i lines.
Proof.
  induction lines as [|l lines IH];
    intros i content data s content' data' s' Hrun.
  - injection Hrun as <- _ _. exists []. by rewrite app_nil_r.
  - rewrite parse_loop_cons in Hrun.
    destruct (parse_line P i l (content, data) s)
      as [[[content1 data1]|e] s1] eqn:Hline; [|done].
    apply IH in Hrun as (new & -> & Hne & Hlen).
    apply parse_line_appends in Hline
      as [->|(Hk & Hd & -> & _ & _)]; cbn [end_tag_lines].
    + exists new. split; [done|]. split; [done|].
      destruct (classify P i l); lia.
    + exists (data :: new). rewrite <- app_assoc. split; [done|].
      split; [by constructor|]. rewrite Hk. simpl. lia.
Qed.

(** X1. Every record that [parselines] returns has at least one field. *)
Theorem returned_records_nonempty (P : Parser) (lines : list pystr)
    (s s' : option bool) (recs : list dict) :
  parselines P lines s = (Ok recs, s') ->
  Forall (λ r : dict, r ≠ ∅) recs.
Proof.
  rewrite parselines_unfold.
  destruct (parse_loop P 0 lines ([], ∅) (Some false))
    as [[[content data]|e] s1] eqn:Hrun; [|done].
  intros [= <- _].
  by apply parse_loop_appends in Hrun as (new & -> & Hne & _).
Qed.

Lemma returned_records_nonempty_witness :
  Forall (λ r : dict, r ≠ ∅)
    [ ({[ py "type_of_reference" := VStr (py "JOUR") ]} : dict) ].
Proof.
  apply (returned_records_nonempty (example_parser true)
           [py "ER  - "; py "TY  - JOUR"; py "ER  - "; py "ER  - "]
           None (Some false)).
  vm_compute. reflexivity.
Defined.

(** X2. [parselines] returns at most one record for each end tag line
    of the input. *)
Theorem records_bounded_by_end_tag_lines (P : Parser) (lines : list pystr)
    (s s' : option bool) (recs : list dict) :
  parselines P lines s = (Ok recs, s') ->
  length recs ≤ end_tag_lines P 0 lines.
Proof.
  rewrite parselines_unfold.
  destruct (parse_loop P 0 lines ([], ∅) (Some false))
    as [[[content data]|e] s1] eqn:Hrun; [|done].
  intros [= <- _].
  by apply parse_loop_appends in Hrun as (new & -> & _ & Hlen).
Qed.

Lemma records_bounded_by_end_tag_lines_witness :
  length [ ({[ py "type_of_reference" := VStr (py "JOUR") ]} : dict) ]
  ≤ end_tag_lines (example_parser true) 0
      [py "ER  - "; py "TY  - JOUR"; py "ER  - "; py "ER  - "].
Proof.
  apply (records_bounded_by_end_tag_lines (example_parser true)
           [py "ER  - "; py "TY  - JOUR"; py "ER  - "; py "ER  - "]
           None (Some false)).
  vm_compute. reflexivity.
Defined.

(** ** The faults of a parse, and where they come from *)

Lemma parse_loop_raise_inv (P : Parser) (lines : list pystr) :
  forall i st s e s',
    parse_loop P i lines st s = (Raise e, s') ->
    ∃ pre line post st1 s1,
      lines = pre ++ line :: post
      ∧ parse_loop P i pre st s = (Ok st1, s1)
      ∧ parse_line P (i + length pre) line st1 s1 = (Raise e, s').
Proof.
  induction lines as [|l lines IH]; intros i st s e s' Hrun; [done|].
  rewrite parse_loop_cons in Hrun.
  destruct (parse_line P i l st s) as [[st1|e1] s1] eqn:Hline.
  - apply IH in Hrun as (pre & line & post & st2 & s2 & -> & Hpre & Hl).
    exists (l :: pre), line, post, st2, s2. split; [done|].
    rewrite parse_loop_cons, Hline. split; [done|].
    by replace (i + length (l :: pre)) with (S i + length pre)
      by (simpl; lia).
  - injection Hrun as <- <-. exists [], l, lines, st, s.
    by rewrite Nat.add_0_r.
Qed.

Lemma add_tag_raise_inv (P : Parser) tag line data e :
  _add_tag P tag line data = Raise e ->
  (e = KeyError tag ∧ mapping P !! tag = None)
  ∨ (e = Exception ∧ is_Some (mapping P !! tag)
     ∧ is_Some (delimiter_get P tag))
  ∨ (e = AttributeError ∧ tag ∈ list_tags P
     ∧ ∃ name str, mapping P !! tag = Some name
                   ∧ data !! name = Some (VStr str) ∧ str ≠ []).
Proof.
  unfold _add_tag. destruct (mapping P !! tag) as [name|] eqn:Hm.
  2:{ intros [= <-]. by left. }
  destruct (delimiter_get P tag) as [d|] eqn:Hd.
  { intros [= <-]. right; left. eauto. }
  case_bool_decide as Hl; [|done]. right; right.
  unfold _add_list_tag, truthy_get in H.
  destruct (data !! name) as [[str|l]|] eqn:Hv; simpl in H; try done.
  - case_bool_decide as Hs; simpl in H; [done|].
    injection H as <-. split; [done|]. split; [done|]. by exists name, str.
  - by case_bool_decide.
Qed.

(** A fault at one line, the flag being set or cleared. *)
Lemma parse_line_raise_inv (P : Parser) i line content data (b : bool)
    e s' :
  parse_line P i line (content, data) (Some b) = (Raise e, s') ->
  let l := first_line_fix i line in
  s' = Some b ∧ tag_line P l
  ∧ ((take 2 l = START_TAG P ∧ b = true
      ∧ e = ParserError (missing_end_msg i l))
     ∨ ((take 2 l = START_TAG P ∧ b = false
         ∨ take 2 l ≠ END_TAG P ∧ is_Some (mapping P !! take 2 l))
        ∧ _add_tag P (take 2 l) l data = Raise e)).
Proof.
  intros Hrun l. fold l in Hrun.
  destruct (decide (tag_line P l)) as [Htag|Hn].
  2:{ unfold l in Hn. by rewrite parse_line_skip in Hrun. }
  unfold l in Htag. rewrite parse_line_tag_line in Hrun by done.
  fold l in Hrun, Htag.
  destruct (decide (take 2 l = START_TAG P)) as [Hs|Hs].
  - destruct b.
    + rewrite parse_tag_start_open in Hrun by done.
      injection Hrun as <- <-. split; [done|]. split; [done|]. by left.
    + rewrite parse_tag_start_closed in Hrun by done.
      destruct (_add_tag P (take 2 l) l data) eqn:Hadd; [done|].
      injection Hrun as <- <-. split; [done|]. split; [done|].
      right. split; [by left|done].
  - destruct (decide (take 2 l = END_TAG P)) as [He|He].
    { rewrite parse_tag_end in Hrun by done.
      by destruct (dict_truthy data). }
    destruct (mapping P !! take 2 l) as [name|] eqn:Hm.
    + rewrite parse_tag_mapped in Hrun by eauto.
      destruct (_add_tag P (take 2 l) l data) eqn:Hadd; [done|].
      injection Hrun as <- <-. split; [done|]. split; [done|].
      right. split; [right; eauto|done].
    + by rewrite parse_tag_unmapped in Hrun.
Qed.

Lemma parse_line_flag_present (P : Parser) i line st (b : bool) r s' :
  parse_line P i line st (Some b) = (r, s') -> ∃ b', s' = Some b'.
Proof.
  destruct st as [content data].
  destruct (decide (tag_line P (first_line_fix i line))) as [Htag|Hn].
  2:{ rewrite parse_line_skip by done. intros [= _ <-]. eauto. }
  rewrite parse_line_tag_line by done. unfold _parse_tag.
  repeat case_decide; unfold bind, get_inref, lift, set_inref, ret, raise;
    repeat case_match; intros; simplify_eq; eauto.
Qed.

Lemma parse_loop_flag_present (P : Parser) (lines : list pystr) :
  forall i st (b : bool) r s',
    parse_loop P i lines st (Some b) = (r, s') -> ∃ b', s' = Some b'.
Proof.
  induction lines as [|l lines IH]; intros i st b r s' Hrun.
  - injection Hrun as _ <-. eauto.
  - rewrite parse_loop_cons in Hrun.
    destruct (parse_line P i l st (Some b)) as [[st1|e] s1] eqn:Hline.
    + apply parse_line_flag_present in Hline as [b1 ->]. by eapply IH.
    + injection Hrun as _ <-. by eapply parse_line_flag_present.
Qed.

(** The line at which [parselines] stops in a fault. *)
Lemma parselines_raise_inv (P : Parser) (lines : list pystr) s e s' :
  parselines P lines s = (Raise e, s') ->
  ∃ pre line post content data (b : bool),
    lines = pre ++ line :: post
    ∧ parse_loop P 0 pre ([], ∅) (Some false) = (Ok (content, data), Some b)
    ∧ parse_line P (length pre) line (content, data) (Some b)
      = (Raise e, s').
Proof.
  rewrite parselines_unfold.
  destruct (parse_loop P 0 lines ([], ∅) (Some false))
    as [[st|e0] s0] eqn:Hrun; [done|].
  intros [= <- <-].
  apply parse_loop_raise_inv in Hrun
    as (pre & line & post & [content data] & s1 & -> & Hpre & Hline).
  destruct (parse_loop_flag_present _ _ _ _ _ _ _ Hpre) as [b ->].
  by exists pre, line, post, content, data, b.
Qed.

(** X4. [ParserError] has one cause: whenever [parselines] raises it,
    some line of the input is a start tag line that was read while the
    lines before it had left a record open, and the message is the one
    for the index and the text of that line. *)
Theorem parser_error_only_for_start_in_open_record (P : Parser)
    (lines : list pystr) (s s' : option bool) (msg : pystr) :
  parselines P lines s = (Raise (ParserError msg), s') ->
  ∃ pre line post st,
    lines = pre ++ line :: post
    ∧ parse_loop P 0 pre ([], ∅) (Some false) = (Ok st, Some true)
    ∧ tag_line P line ∧ take 2 line = START_TAG P
    ∧ msg = missing_end_msg (length pre) line.
Proof.
  intros (pre & line & post & content & data & b & -> & Hpre & Hline)
    %parselines_raise_inv.
  apply parse_line_raise_inv in Hline
    as (_ & Htag & [(Hs & -> & [= ->])|[_ Hadd]]).
  - exists pre, line, post, (content, data).
    pose proof (open_record_prefix_nonempty _ _ _ Hpre) as Hne.
    rewrite first_line_fix_pos in * by (by destruct pre). done.
  - apply add_tag_raise_inv in Hadd as [[? _]|[[? _]|[? _]]]; done.
Qed.

Lemma parser_error_only_for_start_in_open_record_witness :
  ∃ pre line post st,
    [py "TY  - JOUR"; py "AU  - Doe John"; py "TY  - BOOK"; py "ER  - "]
    = pre ++ line :: post
    ∧ parse_loop (example_parser true) 0 pre ([], ∅) (Some false)
      = (Ok st, Some true)
    ∧ tag_line (example_parser true) line
    ∧ take 2 line = START_TAG (example_parser true)
    ∧ missing_end_msg 2 (py "TY  - BOOK")
      = missing_end_msg (length pre) line.
Proof.
  apply (parser_error_only_for_start_in_open_record (example_parser true)
           [py "TY  - JOUR"; py "AU  - Doe John"; py "TY  - BOOK";
            py "ER  - "] None (Some true)).
  vm_compute. reflexivity.
Defined.

(** X5. [KeyError] has one cause: the start tag is not in the tag
    table. With the start tag in the table [parselines] never raises
    it. *)
Theorem key_error_only_for_unmapped_start_tag (P : Parser)
    (lines : list pystr) (s s' : option bool) (key : pystr) :
  parselines P lines s = (Raise (KeyError key), s') ->
  key = START_TAG P ∧ mapping P !! START_TAG P = None.
Proof.
  intros (pre & line & post & content & data & b & -> & Hpre & Hline)
    %parselines_raise_inv.
  apply parse_line_raise_inv in Hline
    as (_ & Htag & [(_ & _ & [=])|[Hwhy Hadd]]).
  apply add_tag_raise_inv in Hadd
    as [[[= ->] Hm]|[[? _]|[? _]]]; try done.
  destruct Hwhy as [[Hs _]|[_ [x Hx]]]; [|congruence].
  by rewrite <- Hs.
Qed.

Lemma key_error_only_for_unmapped_start_tag_witness :
  py "TY" = START_TAG (RisParser ∅ [] ∅ true)
  ∧ mapping (RisParser ∅ [] ∅ true) !! START_TAG (RisParser ∅ [] ∅ true)
    = None.
Proof.
  apply (key_error_only_for_unmapped_start_tag (RisParser ∅ [] ∅ true)
           [py "TY  - JOUR"; py "ER  - "] None (Some false)).
  vm_compute. reflexivity.
Defined.

(** X6. The bare [Exception] has one cause: a tag of the tag table has
    a delimiter that is not [None]. With no such entry [parselines]
    never raises it. *)
Theorem exception_only_with_delimiter_entry (P : Parser)
    (lines : list pystr) (s s' : option bool) :
  parselines P lines s = (Raise Exception, s') ->
  ∃ tag, is_Some (mapping P !! tag) ∧ is_Some (delimiter_get P tag).
Proof.
  intros (pre & line & post & content & data & b & -> & Hpre & Hline)
    %parselines_raise_inv.
  apply parse_line_raise_inv in Hline
    as (_ & Htag & [(_ & _ & [=])|[_ Hadd]]).
  apply add_tag_raise_inv in Hadd
    as [[[=] _]|[(_ & Hm & Hd)|[[=] _]]].
  eauto.
Qed.

Lemma exception_only_with_delimiter_entry_witness :
  ∃ tag, is_Some (mapping url_delimited_parser !! tag)
         ∧ is_Some (delimiter_get url_delimited_parser tag).
Proof.
  apply (exception_only_with_delimiter_entry url_delimited_parser
           [py "TY  - JOUR"; py "UR  - http://a"; py "ER  - "]
           None (Some true)).
  vm_compute. reflexivity.
Defined.

(** What a line can do to the working record. *)
Lemma parse_line_data (P : Parser) i line content data s content' data' s' :
  parse_line P i line (content, data) s = (Ok (content', data'), s') ->
  data' = data ∨ data' = ∅
  ∨ ∃ tag l, _add_tag P tag l data = Ok data'.
Proof.
  destruct (decide (tag_line P (first_line_fix i line))) as [Htag|Hn].
  2:{ rewrite parse_line_skip by done. intros [= _ <- _]. by left. }
  rewrite parse_line_tag_line by done. unfold _parse_tag.
  repeat case_decide; unfold bind, get_inref, lift, set_inref, ret, raise;
    repeat case_match; intros; simplify_eq; eauto.
Qed.

(** A property of the working record that the empty record has and the
    field-add rule keeps holds all along the loop. *)
Lemma parse_loop_data_invariant (P : Parser) (J : dict -> Prop) :
  J ∅ ->
  (∀ tag l data data', J data -> _add_tag P tag l data = Ok data' -> J data') ->
  forall lines i content data s content' data' s',
    J data ->
    parse_loop P i lines (content, data) s = (Ok (content', data'), s') ->
    J data'.
Proof.
  intros Hempty Hadd. induction lines as [|l lines IH];
    intros i content data s content' data' s' HJ Hrun.
  - by injection Hrun as _ <- _.
  - rewrite parse_loop_cons in Hrun.
    destruct (parse_line P i l (content, data) s)
      as [[[content1 data1]|e] s1] eqn:Hline; [|done].
    eapply IH; [|done].
    apply parse_line_data in Hline as [->|[->|(tag & l' & Hl)]]; eauto.
Qed.

Lemma add_tag_strings_in_scalar_fields (P : Parser) tag l data data' :
  strings_in_scalar_fields P data ->
  _add_tag P tag l data = Ok data' ->
  strings_in_scalar_fields P data'.
Proof.
  intros HJ. unfold _add_tag.
  destruct (mapping P !! tag) as [name|] eqn:Hm; [|done].
  destruct (delimiter_get P tag); [done|].
  case_bool_decide as Hl.
  - unfold _add_list_tag. intros Hadd name' str Hlk.
    assert (∃ v, data' = <[name := VList v]> data) as [v ->].
    { destruct (negb _); [injection Hadd as <-; eauto|].
      destruct (data !! name) as [[?|?]|]; try done.
      injection Hadd as <-; eauto. }
    destruct (decide (name = name')) as [->|Hne].
    + by rewrite lookup_insert_eq in Hlk.
    + rewrite lookup_insert_ne in Hlk by done. eauto.
  - intros [= <-] name' str Hlk.
    destruct (data !! name) as [w|] eqn:Hw.
    + rewrite add_single_tag_present in Hlk by eauto. eauto.
    + rewrite add_single_tag_absent in Hlk by done.
      destruct (decide (name = name')) as [->|Hne]; [by exists tag|].
      rewrite lookup_insert_ne in Hlk by done. eauto.
Qed.

(** X7. [AttributeError] has one cause: a list tag and a scalar tag are
    mapped to the same field name (the list tag then finds a string
    where it wants to extend a list). With no such pair of tags
    [parselines] never raises it. *)
Theorem attribute_error_only_for_shared_field_name (P : Parser)
    (lines : list pystr) (s s' : option bool) :
  parselines P lines s = (Raise AttributeError, s') ->
  ∃ list_tag scalar_tag name,
    list_tag ∈ list_tags P ∧ (scalar_tag ∉ list_tags P)
    ∧ mapping P !! list_tag = Some name
    ∧ mapping P !! scalar_tag = Some name.
Proof.
  intros (pre & line & post & content & data & b & -> & Hpre & Hline)
    %parselines_raise_inv.
  apply parse_line_raise_inv in Hline
    as (_ & Htag & [(_ & _ & [=])|[_ Hadd]]).
  apply add_tag_raise_inv in Hadd
    as [[[=] _]|[[[=] _]|(_ & Hl & name & str & Hm & Hv & _)]].
  assert (HJ : strings_in_scalar_fields P data).
  { eapply (parse_loop_data_invariant P (strings_in_scalar_fields P));
      [| |by intros ?? Hlk; rewrite lookup_empty in Hlk|done].
    - by intros ?? Hlk; rewrite lookup_empty in Hlk.
    - intros. by eapply add_tag_strings_in_scalar_fields. }
  destruct (HJ name str Hv) as (t2 & Hn2 & Hm2).
  by exists (take 2 (first_line_fix (length pre) line)), t2, name.
Qed.

Lemma attribute_error_only_for_shared_field_name_witness :
  ∃ list_tag scalar_tag name,
    list_tag ∈ list_tags shared_name_parser
    ∧ (scalar_tag ∉ list_tags shared_name_parser)
    ∧ mapping shared_name_parser !! list_tag = Some name
    ∧ mapping shared_name_parser !! scalar_tag = Some name.
Proof.
  apply (attribute_error_only_for_shared_field_name shared_name_parser
           [py "TY  - JOUR"; py "AU  - Doe John"; py "ER  - "]
           None (Some true)).
  vm_compute. reflexivity.
Defined.

(** ** Lines that change nothing *)

Lemma parse_line_inert (P : Parser) i line st s :
  inert_line P (first_line_fix i line) ->
  parse_line P i line st s = (Ok st, s).
Proof.
  intros [Hn|(Hs & He & Hm)]; [by apply parse_line_skip|].
  destruct (decide (tag_line P (first_line_fix i line))) as [Htag|Hn];
    [|by apply parse_line_skip].
  destruct st as [content data].
  rewrite parse_line_tag_line by done. by rewrite parse_tag_unmapped.
Qed.

(** X8. A blank line, a line the pattern does not match, and a line
    with a tag that is neither the start tag, nor the end tag, nor in
    the tag table can be taken out of the input: the parse ends the
    same way (same records, same fault), but for the line number in the
    message of a later [ParserError]. (When the line is the first one,
    the line after it must be one that the stripping of a first line
    leaves unchanged.) *)
Theorem inert_line_removed (P : Parser) (pre post : list pystr)
    (line : pystr) (s : option bool) :
  inert_line P (first_line_fix (length pre) line) ->
  pre ≠ [] ∨ unstripped_head post ->
  same_but_line_number (parselines P (pre ++ line :: post) s)
    (parselines P (pre ++ post) s).
Proof.
  intros Hinert Hfirst. apply parselines_same_but_line_number.
  rewrite !parse_loop_app.
  destruct (parse_loop P 0 pre ([], ∅) (Some false)) as [[st|e] s1];
    [|apply same_but_line_number_refl].
  rewrite Nat.add_0_l, parse_loop_cons, parse_line_inert by done.
  apply parse_loop_shift. destruct Hfirst as [Hne|Hh]; [left|by right].
  by destruct pre.
Qed.

Lemma inert_line_removed_witness :
  same_but_line_number
    (parselines (example_parser true)
       ([py "TY  - JOUR"] ++ py "N1  - a note"
        :: [py "this line has no tag"; py "TY  - BOOK"]) None)
    (parselines (example_parser true)
       ([py "TY  - JOUR"]
        ++ [py "this line has no tag"; py "TY  - BOOK"]) None).
Proof.
  apply (inert_line_removed (example_parser true) [py "TY  - JOUR"]
           [py "this line has no tag"; py "TY  - BOOK"]
           (py "N1  - a note") None).
  - right. repeat split; vm_compute; (reflexivity || discriminate).
  - left. discriminate.
Defined.

(** ** Fields inside one record *)

Lemma add_tag_frame (P : Parser) tag l data data' name :
  mapping P !! tag = Some name ->
  _add_tag P tag l data = Ok data' ->
  is_Some (data' !! name) ∧ ∀ k, k ≠ name -> data' !! k = data !! k.
Proof.
  intros Hm. unfold _add_tag. rewrite Hm.
  destruct (delimiter_get P tag); [done|].
  case_bool_decide as Hl.
  - unfold _add_list_tag. intros Hadd.
    assert (∃ v, data' = <[name := VList v]> data) as [v ->].
    { destruct (negb _); [injection Hadd as <-; eauto|].
      destruct (data !! name) as [[?|?]|]; try done.
      injection Hadd as <-; eauto. }
    split; [rewrite lookup_insert_eq; eauto|].
    intros k Hk. by rewrite lookup_insert_ne.
  - intros [= <-]. destruct (data !! name) as [w|] eqn:Hw.
    + rewrite add_single_tag_present by eauto. by eauto.
    + rewrite add_single_tag_absent by done.
      split; [rewrite lookup_insert_eq; eauto|].
      intros k Hk. by rewrite lookup_insert_ne.
Qed.

Lemma add_tag_keeps_string (P : Parser) tag l data data' name str :
  str ≠ [] ->
  data !! name = Some (VStr str) ->
  _add_tag P tag l data = Ok data' ->
  data' !! name = Some (VStr str).
Proof.
  intros Hne Hv Hadd.
  destruct (mapping P !! tag) as [name'|] eqn:Hm.
  2:{ unfold _add_tag in Hadd. by rewrite Hm in Hadd. }
  destruct (decide (name' = name)) as [->|Hneq].
  2:{ destruct (add_tag_frame _ _ _ _ _ _ Hm Hadd) as [_ Hfr].
      by rewrite Hfr. }
  unfold _add_tag in Hadd. rewrite Hm in Hadd.
  destruct (delimiter_get P tag); [done|].
  case_bool_decide as Hl.
  - unfold _add_list_tag, truthy_get in Hadd. rewrite Hv in Hadd.
    simpl in Hadd. by rewrite bool_decide_eq_false_2 in Hadd.
  - injection Hadd as <-. by rewrite add_single_tag_present by eauto.
Qed.

Lemma add_tag_grows_list (P : Parser) tag l data data' name vs :
  (∃ more, data !! name = Some (VList (vs ++ more))) ->
  _add_tag P tag l data = Ok data' ->
  ∃ more, data' !! name = Some (VList (vs ++ more)).
Proof.
  intros [more Hv] Hadd.
  destruct (mapping P !! tag) as [name'|] eqn:Hm.
  2:{ unfold _add_tag in Hadd. by rewrite Hm in Hadd. }
  destruct (decide (name' = name)) as [->|Hneq].
  2:{ destruct (add_tag_frame _ _ _ _ _ _ Hm Hadd) as [_ Hfr].
      exists more. by rewrite Hfr. }
  unfold _add_tag in Hadd. rewrite Hm in Hadd.
  destruct (delimiter_get P tag); [done|].
  case_bool_decide as Hl.
  - rewrite (add_list_tag_extend _ _ _ (vs ++ more)) in Hadd by done.
    injection Hadd as <-. rewrite lookup_insert_eq, <- app_assoc. eauto.
  - injection Hadd as <-. rewrite add_single_tag_present by eauto. eauto.
Qed.

Lemma parse_line_data_no_end (P : Parser) i line content data s
    content' data' s' :
  classify P i line ≠ KEnd ->
  parse_line P i line (content, data) s = (Ok (content', data'), s') ->
  content' = content
  ∧ (data' = data ∨ ∃ tag l, _add_tag P tag l data = Ok data').
Proof.
  intros Hk Hline.
  pose proof (parse_line_appends _ _ _ _ _ _ _ _ _ Hline)
    as [->|[? _]]; [|done].
  split; [done|]. revert Hline.
  destruct (decide (tag_line P (first_line_fix i line))) as [Htag|Hn].
  2:{ rewrite parse_line_skip by done. intros [= <- _]. by left. }
  rewrite parse_line_tag_line by done.
  destruct (decide (take 2 (first_line_fix i line) = START_TAG P)) as [Hs|Hs].
  - unfold _parse_tag. rewrite decide_True by done.
    unfold bind, get_inref, lift, set_inref, ret, raise.
    repeat case_match; intros; simplify_eq; eauto.
  - destruct (decide (take 2 (first_line_fix i line) = END_TAG P)) as [He|He].
    { exfalso. apply Hk. unfold classify.
      destruct Htag as [Hb Hp].
      rewrite bool_decide_eq_false_2, Hp by done.
      rewrite decide_False by done. by rewrite decide_True. }
    unfold _parse_tag. rewrite !decide_False by done.
    unfold bind, get_inref, lift, set_inref, ret, raise.
    repeat case_match; intros; simplify_eq; eauto.
Qed.

(** X9. Between two end tag lines the working record only gains: the
    lines append no record, a field that holds a non-empty string keeps
    it (a later line for that field, with either value of
    [enforce_list_tags], does not replace it), and a field that holds a
    list keeps its items in place, later values being added after
    them. *)
Theorem fields_kept_within_record (P : Parser) (lines : list pystr)
    (i : nat) (content content' : list dict) (data data' : dict)
    (s s' : option bool) :
  end_tag_lines P i lines = 0 ->
  parse_loop P i lines (content, data) s = (Ok (content', data'), s') ->
  content' = content
  ∧ (∀ name str, str ≠ [] -> data !! name = Some (VStr str) ->
                 data' !! name = Some (VStr str))
  ∧ (∀ name vs, data !! name = Some (VList vs) ->
                ∃ more, data' !! name = Some (VList (vs ++ more))).
Proof.
  revert i content data s.
  induction lines as [|l lines IH]; intros i content data s Hends Hrun.
  - injection Hrun as <- <- _. split; [done|]. split; [done|].
    intros name vs Hv. exists []. by rewrite app_nil_r.
  - rewrite parse_loop_cons in Hrun. cbn [end_tag_lines] in Hends.
    destruct (parse_line P i l (content, data) s)
      as [[[content1 data1]|e] s1] eqn:Hline; [|done].
    assert (Hk : classify P i l ≠ KEnd)
      by (intros Hk; by rewrite Hk in Hends).
    assert (Hends' : end_tag_lines P (S i) lines = 0)
      by (by destruct (classify P i l)).
    destruct (parse_line_data_no_end _ _ _ _ _ _ _ _ _ Hk Hline)
      as [-> Hdata].
    destruct (IH _ _ _ _ Hends' Hrun) as (-> & Hstr & Hlist).
    split; [done|]. split.
    + intros name str Hne Hv. apply Hstr; [done|].
      destruct Hdata as [->|(tag & l' & Hadd)]; [done|].
      by eapply add_tag_keeps_string.
    + intros name vs Hv.
      assert (∃ more, data1 !! name = Some (VList (vs ++ more)))
        as [more1 Hv1].
      { destruct Hdata as [->|(tag & l' & Hadd)].
        - exists []. by rewrite app_nil_r.
        - eapply add_tag_grows_list; [|done]. exists [].
          by rewrite app_nil_r. }
      destruct (Hlist _ _ Hv1) as [more2 Hv2].
      exists (more1 ++ more2). by rewrite app_assoc.
Qed.

Lemma fields_kept_within_record_witness :
  ∃ more,
    (<[py "authors" := VList [py "Doe John"; py "Roe Jane"]]>
       {[ py "primary_title" := VStr (py "A") ]} : dict)
    !! py "authors" = Some (VList ([py "Doe John"] ++ more)).
Proof.
  destruct (fields_kept_within_record (example_parser false)
              [py "T1  - B"; py "AU  - Roe Jane"] 3 [] []
              (<[py "authors" := VList [py "Doe John"]]>
                 {[ py "primary_title" := VStr (py "A") ]})
              (<[py "authors" := VList [py "Doe John"; py "Roe Jane"]]>
                 {[ py "primary_title" := VStr (py "A") ]})
              (Some true) (Some true)) as (_ & _ & H).
  - vm_compute. reflexivity.
  - vm_compute. reflexivity.
  - apply H. vm_compute. reflexivity.
Defined.

(** ** Two inputs, one after the other *)

Lemma parse_line_open_nonempty (P : Parser) i line content data s
    content' data' s' :
  (s = Some true -> data ≠ ∅) ->
  parse_line P i line (content, data) s = (Ok (content', data'), s') ->
  s' = Some true -> data' ≠ ∅.
Proof.
  intros Hinv Hline Hopen.
  destruct (decide (tag_line P (first_line_fix i line))) as [Htag|Hn].
  2:{ rewrite parse_line_skip in Hline by done. simplify_eq. auto. }
  rewrite parse_line_tag_line in Hline by done.
  destruct (decide (take 2 (first_line_fix i line) = START_TAG P)) as [Hs|Hs].
  - destruct s as [[|]|].
    + by rewrite parse_tag_start_open in Hline.
    + rewrite parse_tag_start_closed in Hline by done.
      destruct (_add_tag P _ _ data) eqn:Hadd; [|done].
      simplify_eq. by eapply add_tag_nonempty.
    + unfold _parse_tag in Hline. by rewrite decide_True in Hline.
  - destruct (decide (take 2 (first_line_fix i line) = END_TAG P)) as [He|He].
    + rewrite parse_tag_end in Hline by done.
      destruct (dict_truthy data); simplify_eq. auto.
    + destruct (mapping P !! take 2 (first_line_fix i line)) eqn:Hm.
      * rewrite parse_tag_mapped in Hline by eauto.
        destruct (_add_tag P _ _ data) eqn:Hadd; [|done].
        simplify_eq. by eapply add_tag_nonempty.
      * rewrite parse_tag_unmapped in Hline by done. simplify_eq. auto.
Qed.

Lemma parse_loop_open_nonempty (P : Parser) (lines : list pystr) :
  forall i content data s content' data' s',
    (s = Some true -> data ≠ ∅) ->
    parse_loop P i lines (content, data) s = (Ok (content', data'), s') ->
    s' = Some true -> data' ≠ ∅.
Proof.
  induction lines as [|l lines IH];
    intros i content data s content' data' s' Hinv Hrun.
  - by injection Hrun as _ <- <-.
  - rewrite parse_loop_cons in Hrun.
    destruct (parse_line P i l (content, data) s)
      as [[[content1 data1]|e] s1] eqn:Hline; [|done].
    eapply IH; [|done]. by eapply parse_line_open_nonempty.
Qed.

(** After an end tag line nothing is pending: the working record is
    empty and no record is open. *)
Lemma parse_loop_after_end_tag (P : Parser) (lines : list pystr) e
    content data s' :
  classify P (length lines) e = KEnd ->
  parse_loop P 0 (lines ++ [e]) ([], ∅) (Some false)
  = (Ok (content, data), s') ->
  data = ∅ ∧ s' = Some false.
Proof.
  intros Hk. rewrite parse_loop_app.
  destruct (parse_loop P 0 lines ([], ∅) (Some false))
    as [[[content1 data1]|e1] s1] eqn:Hpre; [|done].
  rewrite Nat.add_0_l, parse_loop_cons.
  rewrite parse_line_end_tag by by apply classify_end.
  unfold dict_truthy. case_bool_decide as Hd; simpl.
  - intros [= _ <- <-]. split; [done|].
    destruct (parse_loop_flag_present _ _ _ _ _ _ _ Hpre) as [[|] ->];
      [|done].
    exfalso.
    by eapply (parse_loop_open_nonempty P lines 0 [] ∅ (Some false)).
  - by intros [= _ <- <-].
Qed.

Lemma parse_line_content_prefix (P : Parser) i line c0 content data s :
  parse_line P i line (c0 ++ content, data) s =
  match parse_line P i line (content, data) s with
  | (Ok (content', data'), s') => (Ok (c0 ++ content', data'), s')
  | (Raise e, s') => (Raise e, s')
  end.
Proof.
  destruct (decide (tag_line P (first_line_fix i line))) as [Htag|Hn].
  2:{ by rewrite !parse_line_skip by done. }
  rewrite !parse_line_tag_line by done.
  destruct (_parse_tag P i (first_line_fix i line) data s)
    as [[[[d|] data']|e] s']; try done.
  destruct (dict_truthy d); [|done]. by rewrite app_assoc.
Qed.

Lemma parse_loop_content_prefix (P : Parser) (lines : list pystr) c0 :
  forall i content data s,
    parse_loop P i lines (c0 ++ content, data) s =
    match parse_loop P i lines (content, data) s with
    | (Ok (content', data'), s') => (Ok (c0 ++ content', data'), s')
    | (Raise e, s') => (Raise e, s')
    end.
Proof.
  induction lines as [|l lines IH]; intros i content data s; [done|].
  rewrite !parse_loop_cons, parse_line_content_prefix.
  destruct (parse_line P i l (content, data) s)
    as [[[content1 data1]|e] s1]; [|done].
  apply IH.
Qed.

Lemma parse_loop_shift_ok (P : Parser) (lines : list pystr) n :
  forall i st s st' s',
    i ≠ 0 ∨ unstripped_head lines ->
    parse_loop P i lines st s = (Ok st', s') ->
    parse_loop P (n + i) lines st s = (Ok st', s').
Proof.
  induction n as [|n IH]; intros i st s st' s' Hi Hrun; [done|].
  specialize (IH i st s st' s' Hi Hrun).
  assert (Hi' : n + i ≠ 0 ∨ unstripped_head lines).
  { destruct Hi as [?|?]; [left; lia|by right]. }
  destruct (parse_loop_shift P lines (n + i) st s Hi') as [Hs Hr].
  rewrite IH in Hs, Hr. simpl in Hs, Hr.
  change (S n + i) with (S (n + i)).
  destruct (parse_loop P (S (n + i)) lines st s) as [[st1|e1] s1];
    simpl in *; [|done].
  by subst.
Qed.

(** X10. An input that ends with an end tag line is complete: when
    more lines follow it, [parselines] returns the records of the first
    part followed by the records that the further lines give when
    parsed on their own (the first of them being a line that the
    stripping of a first line leaves unchanged). *)
Theorem complete_input_then_more (P : Parser) (l1 l2 : list pystr)
    (e : pystr) (s s1 s2 : option bool) (r1 r2 : list dict) :
  classify P (length l1) e = KEnd ->
  unstripped_head l2 ->
  parselines P (l1 ++ [e]) s = (Ok r1, s1) ->
  parselines P l2 s = (Ok r2, s2) ->
  parselines P ((l1 ++ [e]) ++ l2) s = (Ok (r1 ++ r2), s2).
Proof.
  intros Hk Hhead. rewrite !parselines_unfold, (parse_loop_app _ (l1 ++ [e])).
  destruct (parse_loop P 0 (l1 ++ [e]) ([], ∅) (Some false))
    as [[[content data]|e1] s1'] eqn:H1; [|done].
  destruct (parse_loop_after_end_tag _ _ _ _ _ _ Hk H1) as [-> ->].
  intros [= <- _].
  destruct (parse_loop P 0 l2 ([], ∅) (Some false))
    as [[[content2 data2]|e2] s2'] eqn:H2; [|done].
  intros [= <- <-].
  rewrite <- (app_nil_r content) at 1.
  rewrite parse_loop_content_prefix, Nat.add_0_l.
  pose proof (parse_loop_shift_ok P l2 (length (l1 ++ [e])) 0 _ _ _ _
                (or_intror Hhead) H2) as Hshift.
  rewrite Nat.add_0_r in Hshift. by rewrite Hshift.
Qed.

Lemma complete_input_then_more_witness :
  parselines (example_parser true)
    (([py "TY  - JOUR"] ++ [py "ER  - "])
     ++ [py "TY  - BOOK"; py "PY  - 2020"; py "ER  - "]) None
  = (Ok ([ ({[ py "type_of_reference" := VStr (py "JOUR") ]} : dict) ]
         ++ [ <[py "year" := VStr (py "2020")]>
                {[ py "type_of_reference" := VStr (py "BOOK") ]} ]),
     Some false).
Proof.
  apply (complete_input_then_more (example_parser true)
           [py "TY  - JOUR"] [py "TY  - BOOK"; py "PY  - 2020"; py "ER  - "]
           (py "ER  - ") None (Some false) (Some false)).
  - vm_compute. reflexivity.
  - intros l [= <-]. vm_compute. reflexivity.
  - vm_compute. reflexivity.
  - vm_compute. reflexivity.
Defined.

(** * Further properties of the RIS grammar *)

(** ** Stripping *)

Lemma lstrip_with_head (p : N -> bool) (s : pystr) c :
  head (lstrip_with p s) = Some c -> p c = false.
Proof.
  induction s as [|a s IH]; [done|]. simpl.
  destruct (p a) eqn:Hp; [done|]. by intros [= <-].
Qed.

Lemma lstrip_with_id (p : N -> bool) (s : pystr) :
  (∀ c, head s = Some c -> p c = false) -> lstrip_with p s = s.
Proof.
  destruct s as [|a s]; [done|]. intros Hh. simpl.
  by rewrite (Hh a).
Qed.

Lemma lstrip_with_snoc (p : N -> bool) (s : pystr) c :
  p c = false -> lstrip_with p (s ++ [c]) = lstrip_with p s ++ [c].
Proof.
  intros Hc. induction s as [|a s IH]; simpl.
  - by rewrite Hc.
  - by destruct (p a).
Qed.

Lemma last_rev_head (s : pystr) : last (rev s) = head s.
Proof. destruct s as [|a s]; [done|]. simpl. apply last_snoc. Qed.

Lemma rstrip_with_last (p : N -> bool) (s : pystr) c :
  last (rstrip_with p s) = Some c -> p c = false.
Proof.
  unfold rstrip_with. rewrite last_rev_head. apply lstrip_with_head.
Qed.

Lemma rstrip_with_head (p : N -> bool) (s : pystr) c :
  head s = Some c -> p c = false -> head (rstrip_with p s) = Some c.
Proof.
  destruct s as [|a s]; [done|]. intros [= ->] Hc.
  unfold rstrip_with. simpl. rewrite lstrip_with_snoc by done.
  by rewrite rev_app_distr.
Qed.

Lemma rstrip_with_id (p : N -> bool) (s : pystr) :
  (∀ c, last s = Some c -> p c = false) -> rstrip_with p s = s.
Proof.
  intros Hl. unfold rstrip_with. rewrite lstrip_with_id.
  - apply rev_involutive.
  - intros c Hc. apply Hl. by rewrite <- (rev_involutive s), last_rev_head.
Qed.

Lemma strip_head (s : pystr) c :
  head (strip s) = Some c -> isspace c = false.
Proof.
  unfold strip. destruct (lstrip_with isspace s) as [|a t] eqn:Hs; [done|].
  assert (Ha : isspace a = false) by (apply (lstrip_with_head _ s); by rewrite Hs).
  rewrite (rstrip_with_head _ _ a) by done. by intros [= <-].
Qed.

Lemma strip_last (s : pystr) c :
  last (strip s) = Some c -> isspace c = false.
Proof. apply rstrip_with_last. Qed.

(** X11. [strip] leaves no white space at either end, and stripping a
    second time changes nothing; so the content that the RIS parser
    stores for a line, the text from offset 6 on, stripped, neither
    starts nor ends with white space. *)
Theorem ris_content_is_trimmed (mapping : gmap pystr pystr)
    (list_tags : list pystr) (delimiter : gmap pystr (option pystr))
    (enforce : bool) (line : pystr) :
  ∃ value,
    content (RisParser mapping list_tags delimiter enforce) line = VStr value
    ∧ value = strip (drop 6 line)
    ∧ (∀ c, head value = Some c -> isspace c = false)
    ∧ (∀ c, last value = Some c -> isspace c = false)
    ∧ strip value = value.
Proof.
  exists (strip (drop 6 line)). split; [done|]. split; [done|].
  split; [apply strip_head|]. split; [apply strip_last|].
  unfold strip at 1.
  rewrite lstrip_with_id by apply strip_head.
  apply rstrip_with_id, strip_last.
Qed.

(** ** The tags of the RIS pattern *)

(** X12. A line that the RIS pattern matches has at least five
    characters, and its tag, the first two, is an upper-case letter
    followed by an upper-case letter or a digit. *)
Theorem ris_tag_shape (line : pystr) :
  ris_pattern_match line = true ->
  ∃ a b rest,
    line = a :: b :: rest ∧ take 2 line = [a; b]
    ∧ is_upper a = true ∧ (is_upper b || is_digit b) = true
    ∧ 5 ≤ length line.
Proof.
  unfold ris_pattern_match. intros [H1|H2]%orb_true_iff.
  - destruct line as [|a [|b rest]]; try done.
    apply andb_true_iff in H1 as [[Ha Hb]%andb_true_iff Hsep].
    apply bool_decide_eq_true in Hsep.
    exists a, b, rest. repeat split; try done.
    assert (length (take 4 rest) = 4) as Hlen by by rewrite Hsep.
    rewrite length_take in Hlen. simpl. lia.
  - apply andb_true_iff in H2 as [Her _].
    apply bool_decide_eq_true in Her.
    destruct line as [|a [|b [|c [|d [|e rest]]]]]; try done.
    injection Her as -> -> -> -> ->.
    exists 69%N, 82%N, (32 :: 32 :: 45 :: rest)%N.
    repeat split; simpl; lia.
Qed.

Lemma ris_tag_shape_witness :
  ∃ a b rest,
    py "T1  - A title" = a :: b :: rest
    ∧ take 2 (py "T1  - A title") = [a; b]
    ∧ is_upper a = true ∧ (is_upper b || is_digit b) = true
    ∧ 5 ≤ length (py "T1  - A title").
Proof.
  apply (ris_tag_shape (py "T1  - A title")). vm_compute. reflexivity.
Defined.

(** * Further properties of the renderer *)

(** ** The order of the lines *)

Lemma str_leb_total (a b : pystr) : str_le a b ∨ str_le b a.
Proof.
  unfold str_le. revert b. induction a as [|x a IH]; intros [|y b]; simpl;
    auto.
  destruct (IH b) as [H|H]; rewrite H;
    destruct (N.ltb_spec x y), (N.ltb_spec y x), (N.eqb_spec x y),
      (N.eqb_spec y x); simpl; auto; lia.
Qed.

Global Instance str_le_trans : Transitive str_le.
Proof.
  unfold str_le. intros a. induction a as [|x a IH]; intros [|y b] [|z c];
    simpl; try done.
  intros H1 H2.
  apply orb_true_iff in H1 as [H1|[H1 H1']%andb_true_iff];
    apply orb_true_iff in H2 as [H2|[H2 H2']%andb_true_iff];
    rewrite ?N.ltb_lt, ?N.eqb_eq in *; apply orb_true_iff.
  - left. apply N.ltb_lt. lia.
  - left. apply N.ltb_lt. lia.
  - left. apply N.ltb_lt. lia.
  - right. apply andb_true_iff. split; [apply N.eqb_eq; lia|]. by eapply IH.
Qed.

Global Instance str_le_antisymm : AntiSymm (=) str_le.
Proof.
  unfold str_le. intros a. induction a as [|x a IH]; intros [|y b];
    simpl; try done.
  intros H1 H2.
  apply orb_true_iff in H1 as [H1|[H1 H1']%andb_true_iff];
    apply orb_true_iff in H2 as [H2|[H2 H2']%andb_true_iff];
    rewrite ?N.ltb_lt, ?N.eqb_eq in *; try lia.
  subst. f_equal. by apply IH.
Qed.

Lemma insert_sorted_perm (s : pystr) (l : list pystr) :
  insert_sorted s l ≡ₚ s :: l.
Proof.
  induction l as [|t l IH]; simpl; [done|].
  destruct (str_leb s t); [done|]. rewrite IH. apply Permutation_swap.
Qed.

Lemma sorted_perm (l : list pystr) : sorted l ≡ₚ l.
Proof.
  induction l as [|s l IH]; simpl; [done|].
  unfold sorted in *. simpl. by rewrite insert_sorted_perm, IH.
Qed.

Lemma insert_sorted_HdRel (s t : pystr) (l : list pystr) :
  str_le t s -> HdRel str_le t l -> HdRel str_le t (insert_sorted s l).
Proof.
  intros Hts Hhd. destruct l as [|u l]; simpl; [by constructor|].
  destruct (str_leb s u); constructor; [done|]. by inversion Hhd.
Qed.

Lemma insert_sorted_Sorted (s : pystr) (l : list pystr) :
  Sorted str_le l -> Sorted str_le (insert_sorted s l).
Proof.
  induction l as [|t l IH]; simpl; intros Hs.
  - by repeat constructor.
  - destruct (str_leb s t) eqn:Hst.
    + constructor; [done|]. by constructor.
    + inversion Hs as [|?? Hs' Hhd]; subst. constructor; [by apply IH|].
      apply insert_sorted_HdRel; [|done].
      destruct (str_leb_total s t) as [H|H]; [|done].
      unfold str_le in H. congruence.
Qed.

Lemma sorted_Sorted (l : list pystr) : Sorted str_le (sorted l).
Proof.
  induction l as [|s l IH]; [constructor|].
  unfold sorted in *. simpl. by apply insert_sorted_Sorted.
Qed.

Lemma sorted_of_perm (l1 l2 : list pystr) :
  l1 ≡ₚ l2 -> sorted l1 = sorted l2.
Proof.
  intros Hp. apply (Sorted_unique str_le); try apply sorted_Sorted.
  by rewrite !sorted_perm.
Qed.

(** ** Records without authors *)

Lemma cite_record_authors (f : list pystr -> pystr) newline record :
  is_Some (record !! py "authors") ->
  cite_record f newline record = Ok (cite_line f newline record).
Proof.
  intros [v Hv]. unfold cite_line, cite_record. by rewrite Hv.
Qed.

Lemma cite_loop_ok (f : list pystr -> pystr) newline content :
  forall output,
    Forall (λ r : dict, is_Some (r !! py "authors")) content ->
    cite_loop f newline content output
    = Ok (output ++ map (cite_line f newline) content).
Proof.
  induction content as [|r content IH]; intros output Hall; simpl.
  - by rewrite app_nil_r.
  - inversion Hall as [|?? Hr Hrest]; subst.
    rewrite cite_record_authors by done. rewrite IH by done.
    by rewrite <- app_assoc.
Qed.

Lemma cite_loop_raise (f : list pystr -> pystr) newline content :
  forall output,
    Exists (λ r : dict, r !! py "authors" = None) content ->
    cite_loop f newline content output = Raise (KeyError (py "authors")).
Proof.
  induction content as [|r content IH]; intros output Hex; simpl.
  - by inversion Hex.
  - destruct (r !! py "authors") as [v|] eqn:Hv.
    + rewrite cite_record_authors by eauto. apply IH.
      inversion Hex as [?? Hr|]; subst; [congruence|done].
    + unfold cite_record. by rewrite Hv.
Qed.

Lemma authors_all_or_missing (content : list dict) :
  Forall (λ r : dict, is_Some (r !! py "authors")) content
  ∨ Exists (λ r : dict, r !! py "authors" = None) content.
Proof.
  induction content as [|r content [IH|IH]].
  - left. constructor.
  - destruct (r !! py "authors") eqn:Hv.
    + left. constructor; eauto.
    + right. by constructor.
  - right. by constructor.
Qed.

(** X13. [cite] fails in one way only: it returns a string when every
    record has the key [authors], and raises [KeyError] for that key
    as soon as one record lacks it, whatever the other fields; the
    fields [year], [primary_title], [journal_name] and [doi] may all be
    missing. *)
Theorem cite_fails_only_without_authors (f : list pystr -> pystr)
    (content : list dict) (newline : bool) :
  (Forall (λ r : dict, is_Some (r !! py "authors")) content ->
   cite f content newline
   = Ok (join [10%N] (sorted (map (cite_line f newline) content))))
  ∧ (Exists (λ r : dict, r !! py "authors" = None) content ->
     cite f content newline = Raise (KeyError (py "authors")))
  ∧ (∀ e, cite f content newline = Raise e -> e = KeyError (py "authors")).
Proof.
  split; [|split].
  - intros Hall. unfold cite. by rewrite cite_loop_ok.
  - intros Hex. unfold cite. by rewrite cite_loop_raise.
  - intros e. unfold cite.
    destruct (authors_all_or_missing content) as [Hall|Hex].
    + by rewrite cite_loop_ok.
    + rewrite cite_loop_raise by done. by intros [= <-].
Qed.

Lemma cite_fails_only_without_authors_witness :
  cite (λ _, []) [doe_record; {[ py "year" := VStr (py "2020") ]}] true
  = Raise (KeyError (py "authors")).
Proof.
  destruct (cite_fails_only_without_authors (λ _, [])
              [doe_record; {[ py "year" := VStr (py "2020") ]}] true)
    as (_ & H & _).
  apply H. apply Exists_cons_tl, Exists_cons_hd. vm_compute. reflexivity.
Defined.

(** X14. The string that [cite] returns does not depend on the order of
    the records: the lines are sorted before they are joined. *)
Theorem cite_order_independent (f : list pystr -> pystr)
    (content content' : list dict) (newline : bool) :
  content ≡ₚ content' ->
  cite f content newline = cite f content' newline.
Proof.
  intros Hp. unfold cite.
  destruct (authors_all_or_missing content) as [Hall|Hex].
  - rewrite cite_loop_ok by done.
    rewrite cite_loop_ok by (by rewrite <- Hp).
    f_equal. f_equal. apply sorted_of_perm. by rewrite Hp.
  - rewrite cite_loop_raise by done. rewrite cite_loop_raise; [done|].
    apply Exists_exists in Hex as (r & Hin & Hr).
    apply Exists_exists. exists r. split; [|done]. by rewrite <- Hp.
Qed.

Lemma cite_order_independent_witness :
  cite (λ _, [])
    [doe_record; <[py "authors" := VList [py "Ann Poe"]]> doe_record] false
  = cite (λ _, [])
      [<[py "authors" := VList [py "Ann Poe"]]> doe_record; doe_record] false.
Proof.
  apply (cite_order_independent (λ _, [])). apply Permutation_swap.
Defined.

(** ** The author part of a line *)

Lemma drop_last_snoc (s : pystr) (c : N) : drop_last (s ++ [c]) = s.
Proof.
  unfold drop_last. rewrite length_app. simpl.
  replace (length s + 1 - 1) with (length s) by lia.
  by rewrite take_app_length.
Qed.

(** X15. For a single author, [cite] writes the last word of the name
    in full, then a comma and the first character of the word before
    it, then a full stop; the words before these two are left out. *)
Theorem cite_authors_one_name (name : pystr) (words : list pystr)
    (given family : pystr) :
  split 32 name = words ++ [given; family] ->
  cite_authors [name] = family ++ py ", " ++ take 1 given ++ py ".".
Proof.
  intros Hsplit. unfold cite_authors, enumerate.
  change (map (λ x, rev (split 32 x)) [name]) with [rev (split 32 name)].
  rewrite Hsplit, rev_app_distr.
  set (parts := flat_map _ _).
  assert (parts = [(family ++ py ", " ++ take 1 given ++ py ".") ++ [44%N]])
    as -> by (rewrite <- !app_assoc; vm_compute; reflexivity).
  cbn [join]. apply drop_last_snoc.
Qed.

Lemma cite_authors_one_name_witness :
  cite_authors [py "John Ronald Tolkien"]
  = py "Tolkien" ++ py ", " ++ take 1 (py "Ronald") ++ py ".".
Proof.
  apply (cite_authors_one_name (py "John Ronald Tolkien") [py "John"]
           (py "Ronald") (py "Tolkien")).
  vm_compute. reflexivity.
Defined.





(** * The message of a [ParserError] *)

Lemma py_String (c : ascii) (s : string) :
  py (String c s) = N_of_ascii c :: py s.
Proof. reflexivity. Qed.

Lemma py_inj (s1 s2 : string) : py s1 = py s2 -> s1 = s2.
Proof.
  revert s2. induction s1 as [|c1 s1 IH]; intros [|c2 s2]; try done.
  rewrite !py_String. intros [= Hc Hs]. f_equal; [|by apply IH].
  by rewrite <- (ascii_N_embedding c1), <- (ascii_N_embedding c2), Hc.
Qed.

Lemma pretty_N_char_no_colon (x : N) : N_of_ascii (pretty_N_char x) ≠ 58%N.
Proof. unfold pretty_N_char. by repeat case_match. Qed.

Lemma pretty_N_go_no_colon (x : N) :
  forall s, 58%N ∉ py s -> 58%N ∉ py (pretty_N_go x s).
Proof.
  induction (N.lt_wf_0 x) as [x _ IH]; intros s Hs.
  assert (x = 0 ∨ 0 < x)%N as [->|Hpos] by lia.
  - by rewrite pretty_N_go_0.
  - rewrite pretty_N_go_step by done. apply IH; [by apply N.div_lt|].
    rewrite py_String. apply not_elem_of_cons. split; [|done].
    intros Heq. by apply (pretty_N_char_no_colon (x `mod` 10)).
Qed.

Lemma pretty_nat_no_colon (i : nat) : 58%N ∉ py (pretty i).
Proof.
  unfold pretty, pretty_nat, pretty, pretty_N. case_decide.
  - vm_compute. intros Hin%list_elem_of_In. simpl in Hin. intuition discriminate.
  - apply pretty_N_go_no_colon. apply not_elem_of_nil.
Qed.

Lemma split_at_first (c : N) (a b x y : pystr) :
  c ∉ a -> c ∉ b -> a ++ c :: x = b ++ c :: y -> a = b ∧ x = y.
Proof.
  revert b. induction a as [|a0 a IH]; intros [|b0 b] Ha Hb; simpl.
  - by intros [= ->].
  - intros [= -> _]. exfalso. apply Hb. apply list_elem_of_here.
  - intros [= -> _]. exfalso. apply Ha. apply list_elem_of_here.
  - intros [= -> Hrest].
    apply not_elem_of_cons in Ha as [_ Ha].
    apply not_elem_of_cons in Hb as [_ Hb].
    destruct (IH b Ha Hb Hrest) as [-> ->]. done.
Qed.

(** X17. The message of a [ParserError] tells the line index and the
    line apart: two messages are equal only for the same index and the
    same line text. *)
Theorem missing_end_msg_inj (i j : nat) (line line' : pystr) :
  missing_end_msg i line = missing_end_msg j line' ->
  i = j ∧ line = line'.
Proof.
  unfold missing_end_msg. intros Heq.
  apply app_inv_head in Heq.
  change ([58; 10; 32]%N ++ line) with (58%N :: [10; 32]%N ++ line) in Heq.
  change ([58; 10; 32]%N ++ line') with (58%N :: [10; 32]%N ++ line') in Heq.
  apply split_at_first in Heq as [Hi Hl]; try apply pretty_nat_no_colon.
  split.
  - by apply (inj pretty), py_inj.
  - by apply app_inv_head in Hl.
Qed.

Lemma missing_end_msg_inj_witness :
  2 = 2 ∧ py "TY  - BOOK" = py "TY  - BOOK".
Proof.
  apply (missing_end_msg_inj 2 2 (py "TY  - BOOK") (py "TY  - BOOK")).
  reflexivity.
Defined.

(** * Further facts about single lines *)

Lemma parse_line_first_line_fix (P : Parser) i l1 l2 st s :
  first_line_fix i l1 = first_line_fix i l2 ->
  parse_line P i l1 st s = parse_line P i l2 st s.
Proof. intros Heq. unfold parse_line. by rewrite Heq. Qed.

Lemma lstrip_leading (chars junk l : pystr) :
  Forall (λ c, c ∈ chars) junk -> lstrip chars (junk ++ l) = lstrip chars l.
Proof.
  unfold lstrip. induction junk as [|c junk IH]; intros Hall; [done|].
  inversion Hall as [|?? Hc Hrest]; subst. simpl.
  rewrite bool_decide_eq_true_2 by done. by apply IH.
Qed.

(** Leading characters of the first line that are the letter f or
    U+EFEF are dropped before the line is looked at: the parse is the
    one of the input without them. *)
Theorem first_line_leading_chars_ignored (P : Parser) (junk line : pystr)
    (lines : list pystr) (s : option bool) :
  Forall (λ c, c ∈ lstrip_chars) junk ->
  parselines P ((junk ++ line) :: lines) s = parselines P (line :: lines) s.
Proof.
  intros Hjunk. rewrite !parselines_unfold, !parse_loop_cons.
  rewrite (parse_line_first_line_fix P 0 (junk ++ line) line); [done|].
  unfold first_line_fix. simpl. by apply lstrip_leading.
Qed.

Lemma first_line_leading_chars_ignored_witness :
  parselines (example_parser true)
    ((py "ff" ++ py "TY  - JOUR") :: [py "ER  - "]) None
  = parselines (example_parser true)
      (py "TY  - JOUR" :: [py "ER  - "]) None.
Proof.
  apply (first_line_leading_chars_ignored (example_parser true) (py "ff")).
  repeat constructor.
Defined.

(** X18. Of an end tag line only the tag is used: with another end tag
    line in its place the parse is the same. *)
Theorem end_tag_text_ignored (P : Parser) (pre post : list pystr)
    (e e' : pystr) (s : option bool) :
  end_tag_line P (first_line_fix (length pre) e) ->
  end_tag_line P (first_line_fix (length pre) e') ->
  parselines P (pre ++ e :: post) s = parselines P (pre ++ e' :: post) s.
Proof.
  intros He He'. rewrite !parselines_unfold, !parse_loop_app.
  destruct (parse_loop P 0 pre ([], ∅) (Some false))
    as [[[content data]|e1] s1]; [|done].
  rewrite !parse_loop_cons. by rewrite !parse_line_end_tag.
Qed.

Lemma end_tag_text_ignored_witness :
  parselines (example_parser true)
    ([py "TY  - JOUR"] ++ py "ER  - " :: [py "TY  - BOOK"]) None
  = parselines (example_parser true)
      ([py "TY  - JOUR"] ++ py "ER  - end of record" :: [py "TY  - BOOK"])
      None.
Proof.
  apply (end_tag_text_ignored (example_parser true)).
  - repeat split; vm_compute; (reflexivity || discriminate).
  - repeat split; vm_compute; (reflexivity || discriminate).
Defined.

(** * The one fault of a parse with sound tables *)

(** X19. When the start tag is in the tag table, no tag has a
    delimiter and no field name is shared by a list tag and a scalar
    tag, the only fault [parselines] can raise is [ParserError]. *)
Theorem only_parser_error_with_sound_tables (P : Parser)
    (lines : list pystr) (s s' : option bool) (e : exn) :
  is_Some (mapping P !! START_TAG P) ->
  fault_free_tables P ->
  parselines P lines s = (Raise e, s') ->
  ∃ msg, e = ParserError msg.
Proof.
  intros Hm Hff Hrun.
  pose proof Hrun as (pre & line & post & content & data & b & -> & Hpre
                      & Hline)%parselines_raise_inv.
  rewrite parselines_unfold in Hrun.
  destruct (parse_loop P 0 (pre ++ line :: post) ([], ∅) (Some false))
    as [[st|e0] s0] eqn:Hloop; [done|]. injection Hrun as -> ->.
  pose proof (parse_loop_fault_free P _ Hff 0 [] ∅ false e s'
                (lists_in_list_fields_empty P) Hloop) as Hnf.
  apply parse_line_raise_inv in Hline
    as (_ & Htag & [(_ & _ & ->)|[Hwhy Hadd]]); [eauto|].
  apply add_tag_raise_inv in Hadd
    as [[-> Hnone]|[[-> _]|[-> _]]].
  - destruct Hwhy as [[Hs _]|[_ [x Hx]]]; [|congruence].
    rewrite Hs in Hnone. destruct Hm as [x Hx]. congruence.
  - exfalso. apply Hnf. by left.
  - exfalso. apply Hnf. by right.
Qed.

Lemma only_parser_error_with_sound_tables_witness :
  ∃ msg, ParserError (missing_end_msg 1 (py "TY  - BOOK")) = ParserError msg.
Proof.
  apply (only_parser_error_with_sound_tables (example_parser true)
           [py "TY  - JOUR"; py "TY  - BOOK"] None (Some true)).
  - exists (py "type_of_reference"). vm_compute. reflexivity.
  - apply example_parser_fault_free.
  - vm_compute. reflexivity.
Defined.


(** * The structural fault and what its message holds *)

(** C4. When the lines before [line] have been read without a fault and
    have left the inside-record flag set, and [line] is a tag line whose
    tag is [START_TAG], [parselines] raises [ParserError]. Its message
    is the text [Missing end of record tag in line ], the 0-based index
    of [line] in decimal, a colon, a newline, a space, and then [line]
    as it was given; and it is the message of no other index and of no
    other line text. *)
Theorem start_tag_in_open_record_raises (P : Parser)
    (pre post : list pystr) (line : pystr) (st : list dict * dict)
    (s : option bool) :
  parse_loop P 0 pre ([], ∅) (Some false) = (Ok st, Some true) ->
  tag_line P line ->
  take 2 line = START_TAG P ->
  ∃ msg,
    parselines P (pre ++ line :: post) s
    = (Raise (ParserError msg), Some true)
    ∧ msg = py "Missing end of record tag in line "
            ++ py (pretty (length pre)) ++ [58; 10; 32]%N ++ line
    ∧ ∀ index text,
        py "Missing end of record tag in line "
        ++ py (pretty index) ++ [58; 10; 32]%N ++ text = msg ->
        index = length pre ∧ text = line.
Proof.
  intros Hpre Htag Hstart. eexists. split; [|split; [reflexivity|]].
  - pose proof (open_record_prefix_nonempty _ _ _ Hpre) as Hne.
    assert (Hlen : length pre ≠ 0) by (by destruct pre).
    rewrite parselines_unfold, parse_loop_app, Hpre.
    rewrite Nat.add_0_l, parse_loop_cons. destruct st as [content data].
    rewrite parse_line_tag_line; rewrite first_line_fix_pos by done; [|done].
    by rewrite parse_tag_start_open.
  - intros index text Heq. apply app_inv_head in Heq.
    change ([58; 10; 32]%N ++ text) with (58%N :: [10; 32]%N ++ text) in Heq.
    change ([58; 10; 32]%N ++ line) with (58%N :: [10; 32]%N ++ line) in Heq.
    apply split_at_first in Heq as [Hi Hl]; try apply pretty_nat_no_colon.
    split.
    + by apply (inj pretty), py_inj.
    + by apply app_inv_head in Hl.
Qed.

Lemma start_tag_in_open_record_raises_witness :
  ∃ msg,
    parselines (example_parser true)
      ([py "TY  - JOUR"; py "AU  - Doe John"] ++ py "TY  - BOOK"
       :: [py "ER  - "]) None
    = (Raise (ParserError msg), Some true)
    ∧ msg = py "Missing end of record tag in line "
            ++ py (pretty (length [py "TY  - JOUR"; py "AU  - Doe John"]))
            ++ [58; 10; 32]%N ++ py "TY  - BOOK"
    ∧ ∀ index text,
        py "Missing end of record tag in line "
        ++ py (pretty index) ++ [58; 10; 32]%N ++ text = msg ->
        index = length [py "TY  - JOUR"; py "AU  - Doe John"]
        ∧ text = py "TY  - BOOK".
Proof.
  apply (start_tag_in_open_record_raises (example_parser true)
           [py "TY  - JOUR"; py "AU  - Doe John"] [py "ER  - "]
           (py "TY  - BOOK")
           ([], <[py "authors" := VList [py "Doe John"]]>
                  (<[py "type_of_reference" := VStr (py "JOUR")]> ∅))).
  - vm_compute. reflexivity.
  - split; [vm_compute; discriminate | vm_compute; reflexivity].
  - vm_compute. reflexivity.
Defined.

(** The message for the line at index 2, written out. *)
Example missing_end_message_text :
  missing_end_msg 2 (py "TY  - BOOK")
  = py "Missing end of record tag in line 2:" ++ [10%N] ++ py " TY  - BOOK".
Proof. vm_compute. reflexivity. Qed.

(** * Lines of one tag inside a record *)

(** A property of the working record that the field-add rule keeps
    holds along any run of lines without an end tag line. *)
Lemma parse_loop_invariant_within_record (P : Parser) (J : dict -> Prop) :
  (∀ tag l data data', J data -> _add_tag P tag l data = Ok data' -> J data') ->
  forall lines i out data s out' data' s',
    end_tag_lines P i lines = 0 ->
    J data ->
    parse_loop P i lines (out, data) s = (Ok (out', data'), s') ->
    out' = out ∧ J data'.
Proof.
  intros Hadd. induction lines as [|l lines IH];
    intros i out data s out' data' s' Hends HJ Hrun.
  - by injection Hrun as <- <- _.
  - rewrite parse_loop_cons in Hrun. cbn [end_tag_lines] in Hends.
    destruct (parse_line P i l (out, data) s)
      as [[[out1 data1]|e] s1] eqn:Hline; [|done].
    assert (Hk : classify P i l ≠ KEnd)
      by (intros Hk; by rewrite Hk in Hends).
    assert (Hends' : end_tag_lines P (S i) lines = 0)
      by (by destruct (classify P i l)).
    destruct (parse_line_data_no_end _ _ _ _ _ _ _ _ _ Hk Hline)
      as [-> Hdata].
    eapply IH; [done| |done].
    destruct Hdata as [->|(tag & l' & Hl)]; eauto.
Qed.

Lemma add_tag_keeps_scalar_field (P : Parser) tag l data data' name v :
  (∀ t, mapping P !! t = Some name -> t ∉ list_tags P) ->
  data !! name = Some v ->
  _add_tag P tag l data = Ok data' ->
  data' !! name = Some v.
Proof.
  intros Hscalar Hv Hadd.
  destruct (mapping P !! tag) as [name'|] eqn:Hm.
  2:{ unfold _add_tag in Hadd. by rewrite Hm in Hadd. }
  destruct (decide (name' = name)) as [->|Hneq].
  2:{ destruct (add_tag_frame _ _ _ _ _ _ Hm Hadd) as [_ Hfr].
      by rewrite Hfr. }
  unfold _add_tag in Hadd. rewrite Hm in Hadd.
  destruct (delimiter_get P tag); [done|].
  rewrite bool_decide_eq_false_2 in Hadd by by apply Hscalar.
  injection Hadd as <-. by rewrite add_single_tag_present by eauto.
Qed.

(** What the loop does with a line of a mapped scalar tag. *)
Lemma parse_line_scalar_tag (P : Parser) name i line out data s :
  tag_line P (first_line_fix i line) ->
  take 2 (first_line_fix i line) ≠ START_TAG P ->
  take 2 (first_line_fix i line) ≠ END_TAG P ->
  mapping P !! take 2 (first_line_fix i line) = Some name ->
  (take 2 (first_line_fix i line) ∉ list_tags P) ->
  delimiter_get P (take 2 (first_line_fix i line)) = None ->
  parse_line P i line (out, data) s
  = (Ok (out, _add_single_tag P name
                (content P (first_line_fix i line)) data), s).
Proof.
  intros Htag Hs He Hm Hl Hd. rewrite parse_line_tag_line by done.
  rewrite parse_tag_mapped by eauto. unfold _add_tag.
  rewrite Hm, Hd. by rewrite bool_decide_eq_false_2.
Qed.

(** C3, as stated, fails: with two scalar tags mapped to one field
    name, and with a line for the field read before the start tag, the
    record has two lines of the tag [T1], with the values [A] then [B],
    and the field holds [Z]. *)
Lemma scalar_field_set_before_first_line :
  parselines title_alias_parser
    [py "TY  - JOUR"; py "TI  - Z"; py "T1  - A"; py "T1  - B"; py "ER  - "]
    None
  = (Ok [ <[py "title" := VStr (py "Z")]>
            {[ py "type_of_reference" := VStr (py "JOUR") ]} ], Some false)
  ∧ parselines (example_parser true)
      [py "T1  - Z"; py "TY  - JOUR"; py "T1  - A"; py "T1  - B";
       py "ER  - "] None
    = (Ok [ <[py "primary_title" := VStr (py "Z")]>
              {[ py "type_of_reference" := VStr (py "JOUR") ]} ], Some false).
Proof. split; vm_compute; reflexivity. Qed.

(** C3, amended. Take a tag line whose tag is a scalar tag of the tag
    table (not in the list-tag set, not [START_TAG] or [END_TAG], with
    no delimiter), mapped to the field [name]; [enforce_list_tags] has
    either value. If the working record has the field already, the line
    changes nothing and raises nothing. If it has not, the line sets
    the field to its content; a second line of the same tag right after
    it is ignored, so of the values [A] then [B] the field holds [A];
    and the field still holds that content after any further lines, up
    to the next end tag line, that are read without a fault, when no
    list tag is mapped to the same field name. *)
Theorem scalar_tag_line_first_wins (P : Parser) (name : pystr) (i : nat)
    (lineA : pystr) (out : list dict) (data : dict) (s : option bool) :
  let lA := first_line_fix i lineA in
  tag_line P lA ->
  take 2 lA ≠ START_TAG P ->
  take 2 lA ≠ END_TAG P ->
  mapping P !! take 2 lA = Some name ->
  (take 2 lA ∉ list_tags P) ->
  delimiter_get P (take 2 lA) = None ->
  (is_Some (data !! name) ->
   parse_line P i lineA (out, data) s = (Ok (out, data), s))
  ∧ (data !! name = None ->
     parse_line P i lineA (out, data) s
     = (Ok (out, <[name := content P lA]> data), s)
     ∧ (∀ lineB,
          tag_line P lineB -> take 2 lineB = take 2 lA ->
          parse_loop P i [lineA; lineB] (out, data) s
          = (Ok (out, <[name := content P lA]> data), s))
     ∧ (∀ body out' data' s',
          (∀ tag, mapping P !! tag = Some name -> tag ∉ list_tags P) ->
          end_tag_lines P (S i) body = 0 ->
          parse_loop P i (lineA :: body) (out, data) s
          = (Ok (out', data'), s') ->
          out' = out ∧ data' !! name = Some (content P lA))).
Proof.
  intros lA Htag Hs He Hm Hl Hd.
  pose proof (parse_line_scalar_tag P name i lineA out data s
                Htag Hs He Hm Hl Hd) as Hline. fold lA in Hline.
  split.
  - intros Hpresent. by rewrite Hline, add_single_tag_present.
  - intros Habsent. rewrite add_single_tag_absent in Hline by done.
    split; [done|]. split.
    + intros lineB HtagB HsameB.
      rewrite parse_loop_cons, Hline, parse_loop_cons.
      rewrite (parse_line_scalar_tag P name (S i) lineB);
        rewrite ?first_line_fix_pos by done; rewrite ?HsameB; try done.
      rewrite add_single_tag_present by (rewrite lookup_insert_eq; eauto).
      done.
    + intros body out' data' s' Hscalar Hends Hrun.
      rewrite parse_loop_cons, Hline in Hrun.
      eapply (parse_loop_invariant_within_record P
                (λ d, d !! name = Some (content P lA))); [|done| |done].
      * intros tag l d d' Hv Hadd. by eapply add_tag_keeps_scalar_field.
      * apply lookup_insert_eq.
Qed.

Lemma scalar_tag_line_first_wins_witness :
  parse_loop (example_parser false) 1 [py "T1  - A"; py "T1  - B"]
    ([], {[ py "type_of_reference" := VStr (py "JOUR") ]}) (Some true)
  = (Ok ([], <[py "primary_title" := VStr (py "A")]>
               {[ py "type_of_reference" := VStr (py "JOUR") ]}),
     Some true).
Proof.
  destruct (scalar_tag_line_first_wins (example_parser false)
              (py "primary_title") 1 (py "T1  - A") []
              {[ py "type_of_reference" := VStr (py "JOUR") ]} (Some true))
    as [_ H].
  - split; [vm_compute; discriminate | vm_compute; reflexivity].
  - vm_compute. discriminate.
  - vm_compute. discriminate.
  - vm_compute. reflexivity.
  - intros Hin%list_elem_of_In. vm_compute in Hin. intuition discriminate.
  - vm_compute. reflexivity.
  - destruct H as (_ & Hpair & _); [vm_compute; reflexivity|].
    apply (Hpair (py "T1  - B")).
    + split; [vm_compute; discriminate | vm_compute; reflexivity].
    + vm_compute. reflexivity.
Defined.





(** * A record left open at the end of the input *)

Lemma add_tag_lists_in_list_fields (P : Parser) tag l data data' :
  fault_free_tables P ->
  lists_in_list_fields P data ->
  _add_tag P tag l data = Ok data' ->
  lists_in_list_fields P data'.
Proof.
  intros Hff HJ Hadd.
  destruct (mapping P !! tag) as [name|] eqn:Hm.
  - destruct (add_tag_fault_free P tag l data Hff) as (d & Hd & HJ');
      [eauto|done|]. rewrite Hd in Hadd. by injection Hadd as <-.
  - unfold _add_tag in Hadd. by rewrite Hm in Hadd.
Qed.

(** X3. With the start tag in the tag table and tables under which the
    field-add rule cannot fail: when an input is parsed without a fault
    and leaves no record open, and lines follow that open a record and
    never close it (a start tag line, no end tag line, no second start
    tag line), [parselines] raises nothing and returns the records of
    the input without those lines; the record left open is not among
    them. *)
Theorem open_record_at_end_dropped (P : Parser) (pre tail : list pystr)
    (s : option bool) (recs : list dict) :
  is_Some (mapping P !! START_TAG P) ->
  fault_free_tables P ->
  parselines P pre s = (Ok recs, Some false) ->
  scan P false (length pre) tail = Some (true, 0) ->
  parselines P (pre ++ tail) s = (Ok recs, Some true).
Proof.
  intros Hm Hff Hpre Hscan. rewrite parselines_unfold in Hpre.
  destruct (parse_loop P 0 pre ([], ∅) (Some false))
    as [[[content data]|e] s1] eqn:Hloop; [|done].
  injection Hpre as -> ->.
  rewrite parselines_unfold, parse_loop_app, Hloop, Nat.add_0_l.
  destruct (parse_loop_scan P tail Hm (length pre) false recs data true 0
              Hscan)
    as [(new & data' & Hrun & Hlen & _)|(e & s' & Hrun & Hf)]; [done| |].
  - rewrite Hrun. destruct new; [|done]. by rewrite app_nil_r.
  - exfalso.
    apply (parse_loop_fault_free P tail Hff (length pre) recs data false
             e s'); [|done|done].
    eapply (parse_loop_data_invariant P (lists_in_list_fields P));
      [apply lists_in_list_fields_empty| |apply lists_in_list_fields_empty
      |done].
    intros tag l d d' HJ Hadd. by eapply add_tag_lists_in_list_fields.
Qed.

Lemma open_record_at_end_dropped_witness :
  parselines (example_parser true)
    ([py "TY  - JOUR"; py "ER  - "] ++ [py "TY  - BOOK"; py "AU  - Doe John"])
    None
  = (Ok [ ({[ py "type_of_reference" := VStr (py "JOUR") ]} : dict) ],
     Some true).
Proof.
  apply (open_record_at_end_dropped (example_parser true)
           [py "TY  - JOUR"; py "ER  - "]
           [py "TY  - BOOK"; py "AU  - Doe John"] None).
  - exists (py "type_of_reference"). vm_compute. reflexivity.
  - apply example_parser_fault_free.
  - vm_compute. reflexivity.
  - vm_compute. reflexivity.
Defined.

(** * Missing fields in a citation *)

(** X20. A record that has authors and none of [year],
    [primary_title], [journal_name], [doi], whatever else it holds, is
    rendered with nothing in their places, with or without the final
    newline. *)
Theorem cite_missing_fields_empty (f : list pystr -> pystr)
    (record : dict) (authors : pyval) (newline : bool) :
  record !! py "authors" = Some authors ->
  record !! py "year" = None ->
  record !! py "primary_title" = None ->
  record !! py "journal_name" = None ->
  record !! py "doi" = None ->
  cite f [record] newline
  = Ok (cite_authors (iterate authors) ++ py " (). . . "
        ++ (if newline then [10%N] else [])).
Proof.
  intros Ha Hy Ht Hj Hd. unfold cite. cbn [cite_loop].
  unfold cite_record, format_get. rewrite Ha, Hy, Ht, Hj, Hd.
  unfold sorted. cbn [app foldr insert_sorted join].
  destruct newline; f_equal; rewrite <- ?app_assoc, ?app_nil_r;
    apply (f_equal (app _)); vm_compute; reflexivity.
Qed.

Lemma cite_missing_fields_empty_witness :
  cite (λ _, [])
    [ <[py "authors" := VList [py "John Doe"]]>
        {[ py "type_of_reference" := VStr (py "JOUR") ]} ] true
  = Ok (cite_authors (iterate (VList [py "John Doe"])) ++ py " (). . . "
        ++ [10%N]).
Proof.
  apply (cite_missing_fields_empty (λ _, [])
           (<[py "authors" := VList [py "John Doe"]]>
              {[ py "type_of_reference" := VStr (py "JOUR") ]})
           (VList [py "John Doe"]) true);
    vm_compute; reflexivity.
Defined.
